(** * analyze_midi: Roman-numeral chord analysis of a MIDI file

    A shallow embedding of [analyze_midi.py].  The music21 capabilities the
    script calls (parsing, key detection, chordify, Roman-numeral derivation,
    MIDI writing) are taken as variables of the sections that use them; the
    script's own functions are transcribed one by one.

    Numbers: Python [int] is [Z]; quarter-length values ([float], or
    music21's [Fraction]) are exact rationals [Q], so rounding error is left
    out of the model.  Strings are [string]; a figure is ASCII text, and a
    character is a digit when it is one of '0'..'9'. *)

From Stdlib Require Import List String Ascii Bool ZArith QArith Qround Lia Lqa.
From Stdlib Require Import Numbers.DecimalString Numbers.DecimalN.
Import ListNotations.

Local Open Scope string_scope.

(** ** Python string operations *)

Module PyStr.

(** [ch.isdigit()] on an ASCII character. *)
Definition isdigit (ch : ascii) : bool :=
  let n := nat_of_ascii ch in (48 <=? n)%nat && (n <=? 57)%nat.

(** [pat in s]: [pat] occurs in [s] as a contiguous substring. *)
Fixpoint contains (pat s : string) : bool :=
  prefix pat s ||
  match s with
  | EmptyString => false
  | String _ rest => contains pat rest
  end.

(** [s[:i]] and [s[i:]] for [0 <= i]. *)
Fixpoint take (i : nat) (s : string) : string :=
  match i, s with
  | S j, String c rest => String c (take j rest)
  | _, _ => EmptyString
  end.

Fixpoint drop (i : nat) (s : string) : string :=
  match i, s with
  | S j, String _ rest => drop j rest
  | _, _ => s
  end.

(** [s.replace(old, new)] for one-character [old] and [new]. *)
Fixpoint replace_char (old new : ascii) (s : string) : string :=
  match s with
  | EmptyString => EmptyString
  | String c rest =>
      String (if Ascii.eqb c old then new else c) (replace_char old new rest)
  end.

(** [sep.join(parts)]. *)
Fixpoint join (sep : string) (parts : list string) : string :=
  match parts with
  | [] => EmptyString
  | [p] => p
  | p :: rest => p ++ sep ++ join sep rest
  end.

(** [c * n] for a one-character string [c]. *)
Fixpoint repeat_char (c : ascii) (n : nat) : string :=
  match n with
  | O => EmptyString
  | S m => String c (repeat_char c m)
  end.

(** [f"{n:03d}"]: decimal, zero-padded to width 3, the sign first. *)
Definition format_03d (n : Z) : string :=
  let digits := NilZero.string_of_uint (N.to_uint (Z.to_N (Z.abs n))) in
  let sign := if (n <? 0)%Z then "-" else "" in
  let width := (3 - String.length sign)%nat in
  sign ++ repeat_char "0" (width - String.length digits) ++ digits.

(** [f"{s:>w}"]: right-aligned in a field of width [w]. *)
Definition rjust (w : nat) (s : string) : string :=
  repeat_char " " (w - String.length s) ++ s.

(** [f"{n:4d}"]: decimal, right-aligned in a field of width 4. *)
Definition format_4d (n : Z) : string :=
  let digits := NilZero.string_of_uint (N.to_uint (Z.to_N (Z.abs n))) in
  rjust 4 ((if (n <? 0)%Z then "-" else "") ++ digits).

(** [s] is a substring of [t], and [t] ends in [s], as propositions. *)
Definition substring_of (s t : string) : Prop :=
  exists a b, t = a ++ s ++ b.

Definition ends_with (t s : string) : Prop :=
  exists a, t = a ++ s.

(** No character of [s] is a digit. *)
Fixpoint digit_free (s : string) : bool :=
  match s with
  | EmptyString => true
  | String c rest => negb (isdigit c) && digit_free rest
  end.

End PyStr.

(** ** The analyzed chord record *)

Record AnalyzedChord : Type := mkAnalyzedChord {
  index : Z;
  offset_quarter : Q;
  roman : string;          (* detailed figure from music21 *)
  roman_simple : string;   (* simplified figure *)
  duration_quarter : Q;
  pitch_names : list string
}.

(** ** quantize_value *)

(** Python's [round(x)] of a float: nearest integer, ties to the even one. *)
Definition py_round (x : Q) : Z :=
  let f := Qfloor x in
  match ((x - inject_Z f) ?= (1 # 2))%Q with
  | Lt => f
  | Gt => (f + 1)%Z
  | Eq => if Z.even f then f else (f + 1)%Z
  end.

Definition quantize_value (value grid : Q) : Q :=
  if Qle_bool grid 0 then value
  else
    let steps := (value / grid)%Q in
    let rounded_steps := py_round steps in
    (inject_Z rounded_steps * grid)%Q.

(** ** simplify_roman_figure *)

(** The loop that finds the index of the first digit of [figure]. *)
Fixpoint first_digit_idx (figure : string) : option nat :=
  match figure with
  | EmptyString => None
  | String ch rest =>
      if PyStr.isdigit ch then Some O else option_map S (first_digit_idx rest)
  end.

(** The two halves of the split: [roman_root] and [trailing]. *)
Definition roman_root (figure : string) : string :=
  match first_digit_idx figure with
  | None => figure
  | Some i => PyStr.take i figure
  end.

Definition trailing (figure : string) : string :=
  match first_digit_idx figure with
  | None => ""
  | Some i => PyStr.drop i figure
  end.

Definition simplify_roman_figure (figure : string) : string :=
  if (figure =? "")%string then figure
  else
    let trailing_str := trailing figure in
    let suffix :=
      if PyStr.contains "65" trailing_str then "65"
      else if PyStr.contains "43" trailing_str then "43"
      else if PyStr.contains "42" trailing_str then "42"
      else if PyStr.contains "7" trailing_str then "7"
      else if PyStr.contains "64" trailing_str then "64"
      else if PyStr.contains "6" trailing_str then "6"
      else ""
    in
    roman_root figure ++ suffix.

(** ** music21 objects read by the script *)

(** What the script reads of a [music21.chord.Chord]: its offset, the
    [quarterLength] of its duration when there is one, and the
    [nameWithOctave] of each element of its [pitches] tuple, in order. *)
Record ChordData : Type := mkChord {
  chord_offset : Q;
  quarterLength : option Q;
  pitches : list string
}.

(** The elements of [notesAndRests]. *)
Inductive Music21Object : Type :=
| Rest
| Note (pitch : string)
| Chord (ch : ChordData).

Definition is_harmonic_chord (element : Music21Object) (min_notes : Z) : bool :=
  match element with
  | Chord ch => (Z.of_nat (List.length (pitches ch)) >=? min_notes)%Z
  | _ => false
  end.

(** The number of distinct pitches of a pitch tuple. *)
Definition distinct_pitches (ps : list string) : nat :=
  List.length (nodup string_dec ps).

Definition Qltb (x y : Q) : bool := negb (Qle_bool y x).

(** [float(getattr(element.duration, "quarterLength", 0.0) or 0.0)] *)
Definition source_duration (ch : ChordData) : Q :=
  match quarterLength ch with
  | Some d => if Qeq_bool d 0 then 0%Q else d
  | None => 0%Q
  end.

(** The positive-duration fallback of [analyze_chords]. *)
Definition fallback_duration (dur_q grid : Q) : Q :=
  if Qle_bool dur_q 0
  then (if negb (Qeq_bool grid 0) && Qltb 0 grid then grid else (1 # 4)%Q)
  else dur_q.

(** ** analyze_chords *)

(** The variables of the loop of [analyze_chords]. *)
Record LoopState : Type := mkLoop {
  results : list AnalyzedChord;
  last_roman : option string;
  idx : Z
}.

Definition loop_init : LoopState :=
  {| results := []; last_roman := None; idx := 1%Z |}.

(** [last_roman == roman_str] *)
Definition last_roman_is (last : option string) (roman_str : string) : bool :=
  match last with
  | Some r => (r =? roman_str)%string
  | None => false
  end.

Section Analysis.

(** music21's keys and scores, and the calls made on them.  A call that
    raises is [None], or [inl] of the exception's text. *)
Variables Key Score : Type.
Variable romanNumeralFromChord : ChordData -> Key -> option string.
Variable converter_parse : string -> string + Score.
Variable analyze_key : Score -> option Key.
Variable C_major : Key.
Variable chordify : Score -> list Music21Object.

Definition roman_of_chord (ch : ChordData) (key_obj : Key) : option string :=
  romanNumeralFromChord ch key_obj.

Definition detect_key (score : Score) : Key :=
  match analyze_key score with
  | Some k => k
  | None => C_major
  end.

Definition chordify_and_extract (score : Score) : list Music21Object :=
  chordify score.

(** One iteration of the loop over [notesAndRests]. *)
Definition analyze_step (effective_key : Key) (grid : Q) (dedupe : bool)
    (min_notes : Z) (st : LoopState) (element : Music21Object) : LoopState :=
  if negb (is_harmonic_chord element min_notes) then st
  else
    match element with
    | Chord ch =>
        match roman_of_chord ch effective_key with
        | None => st
        | Some roman_str =>
            let offset_q := quantize_value (chord_offset ch) grid in
            let dur_q := fallback_duration (source_duration ch) grid in
            if dedupe && last_roman_is (last_roman st) roman_str then st
            else
              let pitch_names := pitches ch in
              let roman_simple := simplify_roman_figure roman_str in
              {| results :=
                   results st ++
                   [ {| index := idx st;
                        offset_quarter := offset_q;
                        roman := roman_str;
                        roman_simple := roman_simple;
                        duration_quarter := dur_q;
                        pitch_names := pitch_names |} ];
                 last_roman := Some roman_str;
                 idx := (idx st + 1)%Z |}
        end
    | _ => st (* not reached: only a Chord passes the filter *)
    end.

(** The whole loop, from the initial state. *)
Definition analyze_elements (effective_key : Key) (grid : Q) (dedupe : bool)
    (min_notes : Z) (elements : list Music21Object) : list AnalyzedChord :=
  results
    (fold_left (analyze_step effective_key grid dedupe min_notes)
               elements loop_init).

Definition analyze_chords (midi_path : string) (key_override : option Key)
    (grid : Q) (dedupe : bool) (min_notes : Z)
  : string + (Key * list AnalyzedChord) :=
  match converter_parse midi_path with
  | inl exc => inl exc
  | inr score =>
      let effective_key :=
        match key_override with
        | Some k => k
        | None => detect_key score
        end in
      let reduced_part := chordify_and_extract score in
      inr (effective_key,
           analyze_elements effective_key grid dedupe min_notes reduced_part)
  end.

End Analysis.

Arguments analyze_step {Key}.
Arguments analyze_elements {Key}.

(** ** export_chord_midis, format_row and main *)

(** What a run leaves behind: the exit code, the lines printed to standard
    output and to standard error, and the snippet files written, in order. *)
Record Run : Type := mkRun {
  exit_code : Z;
  stdout : list string;
  stderr : list string;
  written : list string
}.

(** The parsed command line. *)
Record Args : Type := mkArgs {
  arg_midi : string;
  arg_key_text : option string;
  arg_grid : Q;
  arg_dedupe : bool;
  arg_min_notes : Z;
  arg_show_notes : bool;
  arg_bpm : option Q;
  arg_limit : option Z
}.

(** [max(0.25, d)] *)
Definition max_quarter (d : Q) : Q :=
  if Qltb (1 # 4) d then d else (1 # 4)%Q.

(** The file name of an entry's snippet. *)
Definition snippet_name (entry : AnalyzedChord) : string :=
  PyStr.format_03d (index entry) ++ "_" ++
  PyStr.replace_char "/" "-" (roman_simple entry) ++ ".mid".

Section Exporter.

(** Building the one-chord stream at tempo 120 and writing it to a path;
    [Some exc] when any of it raises. *)
Variable write_midi : list string -> Q -> Z -> string -> option string.
Variable path_join : string -> string -> string.

(** Where an entry's snippet goes, and what writing it gives. *)
Definition snippet_path (export_dir : string) (entry : AnalyzedChord)
  : string :=
  path_join export_dir (snippet_name entry).

Definition write_entry (export_dir : string) (entry : AnalyzedChord)
  : option string :=
  write_midi (pitch_names entry) (max_quarter (duration_quarter entry)) 120
             (snippet_path export_dir entry).

(** The loop of [export_chord_midis]: the paths written, in order, and the
    exception that ended the loop, if one did. *)
Fixpoint export_chord_midis (export_dir : string)
    (analyzed : list AnalyzedChord) : list string * option string :=
  match analyzed with
  | [] => ([], None)
  | entry :: rest =>
      let fname := snippet_name entry in
      let out_path := path_join export_dir fname in
      match write_midi (pitch_names entry)
              (max_quarter (duration_quarter entry)) 120 out_path with
      | Some exc => ([], Some exc)
      | None =>
          let '(paths, raised) := export_chord_midis export_dir rest in
          (out_path :: paths, raised)
      end
  end.

End Exporter.

(** The capabilities [main] runs against: music21's, and the file system's.
    A call that raises is [None], or [inl] of the exception's text; for
    the two that only write, [Some] of it. *)
Record Env (Key Score : Type) : Type := mkEnv {
  env_romanNumeralFromChord : ChordData -> Key -> option string;
  env_converter_parse : string -> string + Score;
  env_analyze_key : Score -> option Key;
  env_C_major : Key;
  env_chordify : Score -> list Music21Object;
  env_write_midi : list string -> Q -> Z -> string -> option string;
  env_parse_key_argument : string -> string + Key;
  env_tonic_name : Key -> string;
  env_mode_name : Key -> string;
  env_is_absolute : string -> bool;
  env_path_exists : string -> bool;
  env_script_dir : string;
  env_path_join : string -> string -> string;
  env_path_name : string -> string;
  env_path_stem : string -> string;
  env_path_parent : string -> string;
  env_mkdir : string -> option string;
  env_format_8_2f : Q -> string          (* f"{x:8.2f}" *)
}.

Arguments env_romanNumeralFromChord {Key Score}.
Arguments env_converter_parse {Key Score}.
Arguments env_analyze_key {Key Score}.
Arguments env_C_major {Key Score}.
Arguments env_chordify {Key Score}.
Arguments env_write_midi {Key Score}.
Arguments env_parse_key_argument {Key Score}.
Arguments env_tonic_name {Key Score}.
Arguments env_mode_name {Key Score}.
Arguments env_is_absolute {Key Score}.
Arguments env_path_exists {Key Score}.
Arguments env_script_dir {Key Score}.
Arguments env_path_join {Key Score}.
Arguments env_path_name {Key Score}.
Arguments env_path_stem {Key Score}.
Arguments env_path_parent {Key Score}.
Arguments env_mkdir {Key Score}.
Arguments env_format_8_2f {Key Score}.

Section Main.

Context {Key Score : Type}.
Variable env : Env Key Score.

Local Abbreviation romanNumeralFromChord := (env_romanNumeralFromChord env).
Local Abbreviation converter_parse := (env_converter_parse env).
Local Abbreviation analyze_key := (env_analyze_key env).
Local Abbreviation C_major := (env_C_major env).
Local Abbreviation chordify := (env_chordify env).
Local Abbreviation write_midi := (env_write_midi env).
Local Abbreviation parse_key_argument := (env_parse_key_argument env).
Local Abbreviation tonic_name := (env_tonic_name env).
Local Abbreviation mode_name := (env_mode_name env).
Local Abbreviation is_absolute := (env_is_absolute env).
Local Abbreviation path_exists := (env_path_exists env).
Local Abbreviation script_dir := (env_script_dir env).
Local Abbreviation path_join := (env_path_join env).
Local Abbreviation path_name := (env_path_name env).
Local Abbreviation path_stem := (env_path_stem env).
Local Abbreviation path_parent := (env_path_parent env).
Local Abbreviation mkdir := (env_mkdir env).
Local Abbreviation format_8_2f := (env_format_8_2f env).

Definition format_row (self : AnalyzedChord) (bpm : option Q)
    (show_notes : bool) : string :=
  let idx_col := PyStr.format_4d (index self) in
  let off_col := format_8_2f (offset_quarter self) ++ "q" in
  let secs_col :=
    match bpm with
    | Some b =>
        if Qltb 0 b
        then format_8_2f (offset_quarter self / (b / 60))%Q ++ "s"
        else PyStr.repeat_char " " 8
    | None => PyStr.repeat_char " " 8
    end in
  let roman_simple_col := PyStr.rjust 8 (roman_simple self) in
  let roman_full_col := PyStr.rjust 10 (roman self) in
  let row :=
    idx_col ++ "  " ++ off_col ++ "  " ++ secs_col ++ "  " ++
    roman_simple_col ++ "  " ++ roman_full_col in
  if show_notes
  then row ++ "  " ++ PyStr.join "," (pitch_names self)
  else row.

(** The printing loop, with its [--limit] break: the rows printed, and the
    final [count]. *)
Fixpoint print_rows (args : Args) (analyzed : list AnalyzedChord)
    (count : Z) : list string * Z :=
  match analyzed with
  | [] => ([], count)
  | entry :: rest =>
      let row := format_row entry (arg_bpm args) (arg_show_notes args) in
      let count' := (count + 1)%Z in
      let stop :=
        match arg_limit args with
        | Some l => (count' >=? l)%Z
        | None => false
        end in
      if stop then ([row], count')
      else
        let '(rows, final) := print_rows args rest count' in
        (row :: rows, final)
  end.

(** Everything [main] prints to standard output after the export. *)
Definition print_table (args : Args) (midi_path : string)
    (effective_key : Key) (analyzed : list AnalyzedChord) : list string :=
  let header_left := "File: " ++ path_name midi_path in
  let header_right :=
    "Key: " ++ tonic_name effective_key ++ " " ++ mode_name effective_key in
  let gap :=
    Z.max 1 (100 - Z.of_nat (String.length header_left)
                 - Z.of_nat (String.length header_right)) in
  let header_cols :=
    [ PyStr.rjust 4 "Index"; PyStr.rjust 8 "Offset(q)"; PyStr.rjust 8 "Secs";
      PyStr.rjust 8 "Roman"; PyStr.rjust 10 "Figure" ] in
  let header_line :=
    PyStr.join "  " header_cols ++
    (if arg_show_notes args then "  Notes" else "") in
  let '(rows, count) := print_rows args analyzed 0 in
  [ header_left ++ PyStr.repeat_char " " (Z.to_nat gap) ++ header_right;
    header_line;
    PyStr.repeat_char "-" 100 ] ++
  rows ++
  (if (count =? 0)%Z then ["No chords found with the current settings."]
   else []).

(** The export block of [main], under its [try]: the paths written and the
    warning printed, if any. *)
Definition export_dir_of (midi_path : string) : string :=
  path_join (path_parent midi_path) (path_stem midi_path ++ "_chords").

Definition export_block (midi_path : string)
    (analyzed : list AnalyzedChord) : list string * list string :=
  let export_dir := export_dir_of midi_path in
  match mkdir export_dir with
  | Some exc =>
      ([], ["Warning: failed exporting per-chord MIDIs: " ++ exc])
  | None =>
      match export_chord_midis write_midi path_join export_dir analyzed with
      | (paths, Some exc) =>
          (paths, ["Warning: failed exporting per-chord MIDIs: " ++ exc])
      | (paths, None) => (paths, [])
      end
  end.

(** The path [main] settles on: a relative path is looked up in the
    script's directory first. *)
Definition resolved_midi_path (args : Args) : string :=
  if negb (is_absolute (arg_midi args)) then
    let candidate := path_join script_dir (arg_midi args) in
    if path_exists candidate then candidate else arg_midi args
  else arg_midi args.

(** The key override of [main]: none without [--key], else the parsed
    key, or the message printed when parsing raises. *)
Definition parsed_key (args : Args) : string + option Key :=
  match arg_key_text args with
  | None => inr None
  | Some text =>
      if (text =? "")%string then inr None
      else
        match parse_key_argument text with
        | inl exc => inl ("Failed to parse --key '" ++ text ++ "': " ++ exc)
        | inr k => inr (Some k)
        end
  end.

Definition main (args : Args) : Run :=
  let midi_path := resolved_midi_path args in
  if negb (path_exists midi_path) then
    mkRun 1 []
      ["MIDI file not found: " ++ arg_midi args ++
       ". Looked relative to script dir: " ++ script_dir] []
  else
    match parsed_key args with
    | inl message => mkRun 1 [] [message] []
    | inr key_override =>
        match analyze_chords Key Score romanNumeralFromChord converter_parse
                analyze_key C_major chordify midi_path key_override
                (arg_grid args) (arg_dedupe args) (arg_min_notes args) with
        | inl exc => mkRun 1 [] ["Failed to analyze MIDI: " ++ exc] []
        | inr (effective_key, analyzed) =>
            let '(paths, warnings) := export_block midi_path analyzed in
            mkRun 0 (print_table args midi_path effective_key analyzed)
                  warnings paths
        end
    end.

End Main.

(** ** Notions used to state the properties *)

(** The suffixes [simplify_roman_figure] chooses from. *)
Definition seventh_codes : list string := ["65"; "43"; "42"; "7"].
Definition triad_codes : list string := ["64"; "6"].
Definition suffixes : list string := seventh_codes ++ triad_codes ++ [""].

(** What one iteration appends, if anything, given the current
    [last_roman] and [idx]. *)
Definition analyze_one {Key : Type}
    (romanNumeralFromChord : ChordData -> Key -> option string)
    (effective_key : Key) (grid : Q) (dedupe : bool) (min_notes : Z)
    (last : option string) (i : Z) (element : Music21Object)
  : option AnalyzedChord :=
  match element with
  | Chord ch =>
      if is_harmonic_chord element min_notes then
        match romanNumeralFromChord ch effective_key with
        | Some roman_str =>
            if dedupe && last_roman_is last roman_str then None
            else Some {| index := i;
                         offset_quarter := quantize_value (chord_offset ch) grid;
                         roman := roman_str;
                         roman_simple := simplify_roman_figure roman_str;
                         duration_quarter :=
                           fallback_duration (source_duration ch) grid;
                         pitch_names := pitches ch |}
        | None => None
        end
      else None
  | _ => None
  end.

(** The records the loop appends from a given [last_roman] and [idx] on,
    in order. *)
Fixpoint emitted {Key : Type}
    (romanNumeralFromChord : ChordData -> Key -> option string)
    (effective_key : Key) (grid : Q) (dedupe : bool) (min_notes : Z)
    (last : option string) (i : Z) (elements : list Music21Object)
  : list AnalyzedChord :=
  match elements with
  | [] => []
  | element :: rest =>
      match analyze_one romanNumeralFromChord effective_key grid dedupe
                        min_notes last i element with
      | Some r =>
          r :: emitted romanNumeralFromChord effective_key grid dedupe
                       min_notes (Some (roman r)) (i + 1)%Z rest
      | None =>
          emitted romanNumeralFromChord effective_key grid dedupe
                  min_notes last i rest
      end
  end.

(** No figure of [l] equals the one before it, [prev] coming first. *)
Fixpoint no_repeat (prev : option string) (l : list string) : Prop :=
  match l with
  | [] => True
  | x :: rest => prev <> Some x /\ no_repeat (Some x) rest
  end.

(** [start], [start + 1], ... : [n] consecutive integers. *)
Fixpoint count_from (start : Z) (n : nat) : list Z :=
  match n with
  | O => []
  | S m => start :: count_from (start + 1)%Z m
  end.

(** The offsets of the chords of a stream, in stream order. *)
Fixpoint chord_offsets (elements : list Music21Object) : list Q :=
  match elements with
  | [] => []
  | Chord ch :: rest => chord_offset ch :: chord_offsets rest
  | _ :: rest => chord_offsets rest
  end.

(** A sequence of rationals that never decreases. *)
Fixpoint non_decreasing (l : list Q) : Prop :=
  match l with
  | [] => True
  | x :: rest => Forall (fun y => (x <= y)%Q) rest /\ non_decreasing rest
  end.

(** The detailed figures of the groups that pass the filter and the
    derivation, in stream order. *)
Fixpoint candidate_figures {Key : Type}
    (romanNumeralFromChord : ChordData -> Key -> option string)
    (effective_key : Key) (min_notes : Z) (elements : list Music21Object)
  : list string :=
  match elements with
  | [] => []
  | Chord ch :: rest =>
      if is_harmonic_chord (Chord ch) min_notes then
        match romanNumeralFromChord ch effective_key with
        | Some f =>
            f :: candidate_figures romanNumeralFromChord effective_key
                                   min_notes rest
        | None =>
            candidate_figures romanNumeralFromChord effective_key
                              min_notes rest
        end
      else candidate_figures romanNumeralFromChord effective_key min_notes rest
  | _ :: rest =>
      candidate_figures romanNumeralFromChord effective_key min_notes rest
  end.

(** Dropping each figure equal to the last one kept. *)
Fixpoint dedupe_figures (last : option string) (figures : list string)
  : list string :=
  match figures with
  | [] => []
  | f :: rest =>
      if last_roman_is last f then dedupe_figures last rest
      else f :: dedupe_figures (Some f) rest
  end.

(** ** A small stream in C major, for the examples *)

Definition triad (off dur : Q) (ps : list string) : Music21Object :=
  Chord {| chord_offset := off; quarterLength := Some dur; pitches := ps |}.

(** A table in place of music21's Roman-numeral derivation. *)
Definition toy_roman (ch : ChordData) (_ : unit) : option string :=
  if list_eq_dec string_dec (pitches ch) ["C4"; "E4"; "G4"] then Some "I"
  else if list_eq_dec string_dec (pitches ch) ["G3"; "B3"; "D4"] then Some "V"
  else if list_eq_dec string_dec (pitches ch) ["B3"; "D4"; "F4"; "G4"]
       then Some "V65"
  else if list_eq_dec string_dec (pitches ch) ["B3"; "D4"; "F4"; "G4"; "A4"]
       then Some "V6532"
  else None.

Definition tonic_chord (off dur : Q) : Music21Object :=
  triad off dur ["C4"; "E4"; "G4"].

Definition dominant_chord (off dur : Q) : Music21Object :=
  triad off dur ["G3"; "B3"; "D4"].

(** I I V V V I, one chord per quarter, with a rest, a single note and a
    dyad in between. *)
Definition toy_stream : list Music21Object :=
  [ tonic_chord 0 1; Rest; tonic_chord 1 1; dominant_chord 2 1;
    Note "G4"; dominant_chord 3 0; triad (7 # 2) 1 ["C4"; "G4"];
    dominant_chord 4 1; tonic_chord 5 1 ].

(** An environment for the examples: the score is its own reduction, every
    path exists, and writing fails on the one path [fail_on]. *)
Definition toy_env (fail_on : string) : Env unit (list Music21Object) :=
  {| env_romanNumeralFromChord := toy_roman;
     env_converter_parse := fun _ => inr toy_stream;
     env_analyze_key := fun _ => Some tt;
     env_C_major := tt;
     env_chordify := fun score => score;
     env_write_midi :=
       fun _ _ _ out_path =>
         if (out_path =? fail_on)%string then Some "disk full" else None;
     env_parse_key_argument := fun _ => inr tt;
     env_tonic_name := fun _ => "C";
     env_mode_name := fun _ => "major";
     env_is_absolute := fun _ => true;
     env_path_exists := fun _ => true;
     env_script_dir := "/app";
     env_path_join := fun a b => a ++ "/" ++ b;
     env_path_name := fun _ => "song.mid";
     env_path_stem := fun _ => "song";
     env_path_parent := fun _ => "/music";
     env_mkdir := fun _ => None;
     env_format_8_2f := fun _ => "    0.00" |}.

Definition toy_args : Args :=
  {| arg_midi := "/music/song.mid";
     arg_key_text := None;
     arg_grid := 1 # 4;
     arg_dedupe := true;
     arg_min_notes := 3;
     arg_show_notes := true;
     arg_bpm := None;
     arg_limit := None |}.

(** An element as [chordify] yields it: the pitches of a chord form a set,
    no pitch is named twice. *)
Definition reduced_stream_element (element : Music21Object) : Prop :=
  match element with
  | Chord ch => NoDup (pitches ch)
  | _ => True
  end.

(** A part with measures, as [chordify] returns it for a score that has
    them: a measure starts at an offset of the part, and the [offset] of
    each of its elements counts from the start of the measure. *)
Record Measure : Type := mkMeasure {
  measure_offset : Q;
  measure_elements : list Music21Object
}.

(** [part.recurse().notesAndRests]: the elements of the measures, in order,
    each with the [offset] it has in its measure. *)
Definition notesAndRests (part : list Measure) : list Music21Object :=
  flat_map measure_elements part.

(** When the chords of a part sound, counted from the start of the part. *)
Definition chord_onsets (part : list Measure) : list Q :=
  flat_map
    (fun m => map (fun o => (measure_offset m + o)%Q)
                  (chord_offsets (measure_elements m)))
    part.

(** Two bars of four quarters: a chord on the last beat of the first, and
    one on the first beat of the second. *)
Definition two_bars : list Measure :=
  [ mkMeasure 0 [tonic_chord 3 1]; mkMeasure 4 [dominant_chord 0 1] ].

(** The same environment with an export directory that cannot be made. *)
Definition toy_env_readonly : Env unit (list Music21Object) :=
  let env := toy_env "" in
  {| env_romanNumeralFromChord := env_romanNumeralFromChord env;
     env_converter_parse := env_converter_parse env;
     env_analyze_key := env_analyze_key env;
     env_C_major := env_C_major env;
     env_chordify := env_chordify env;
     env_write_midi := env_write_midi env;
     env_parse_key_argument := env_parse_key_argument env;
     env_tonic_name := env_tonic_name env;
     env_mode_name := env_mode_name env;
     env_is_absolute := env_is_absolute env;
     env_path_exists := env_path_exists env;
     env_script_dir := env_script_dir env;
     env_path_join := env_path_join env;
     env_path_name := env_path_name env;
     env_path_stem := env_path_stem env;
     env_path_parent := env_path_parent env;
     env_mkdir := fun _ => Some "read-only file system";
     env_format_8_2f := env_format_8_2f env |}.

(** [toy_args] with [--limit]. *)
Definition toy_args_limit (l : Z) : Args :=
  {| arg_midi := arg_midi toy_args;
     arg_key_text := arg_key_text toy_args;
     arg_grid := arg_grid toy_args;
     arg_dedupe := arg_dedupe toy_args;
     arg_min_notes := arg_min_notes toy_args;
     arg_show_notes := arg_show_notes toy_args;
     arg_bpm := arg_bpm toy_args;
     arg_limit := Some l |}.

(** The line [main] prints when there is no row. *)
Definition no_chords_line : string :=
  "No chords found with the current settings.".

(** The character [c] occurs in [s]; every character of [s] is a digit. *)
Fixpoint occurs (c : ascii) (s : string) : bool :=
  match s with
  | EmptyString => false
  | String d rest => Ascii.eqb d c || occurs c rest
  end.

Fixpoint all_digits (s : string) : bool :=
  match s with
  | EmptyString => true
  | String d rest => PyStr.isdigit d && all_digits rest
  end.

(** Reading a decimal numeral back, leading zeros allowed. *)
Definition read_decimal (s : string) : option N :=
  option_map N.of_uint (NilEmpty.uint_of_string s).

(** ** parse_key_argument *)

Module PyText.

(** [c.isspace()] on an ASCII character: tab to carriage return, the four
    separators 28 to 31, and the space. *)
Definition isspace (c : ascii) : bool :=
  let n := nat_of_ascii c in
  ((9 <=? n)%nat && (n <=? 13)%nat) || ((28 <=? n)%nat && (n <=? 32)%nat).

(** [s.lstrip()], [s.rstrip()] and [s.strip()]. *)
Fixpoint lstrip (s : string) : string :=
  match s with
  | EmptyString => EmptyString
  | String c rest => if isspace c then lstrip rest else s
  end.

Fixpoint rstrip (s : string) : string :=
  match s with
  | EmptyString => EmptyString
  | String c rest =>
      let kept := rstrip rest in
      if (kept =? "")%string && isspace c then EmptyString
      else String c kept
  end.

Definition strip (s : string) : string := lstrip (rstrip s).

(** [s.lower()] on ASCII text. *)
Definition lower_char (c : ascii) : ascii :=
  let n := nat_of_ascii c in
  if (65 <=? n)%nat && (n <=? 90)%nat then ascii_of_nat (n + 32) else c.

Fixpoint lower (s : string) : string :=
  match s with
  | EmptyString => EmptyString
  | String c rest => String (lower_char c) (lower rest)
  end.

(** [s.endswith(suffix)]. *)
Fixpoint endswith (s suffix : string) : bool :=
  (s =? suffix)%string ||
  match s with
  | EmptyString => false
  | String _ rest => endswith rest suffix
  end.

(** [s[:-n]] for [n > 0]. *)
Definition drop_last (n : nat) (s : string) : string :=
  PyStr.take (String.length s - n) s.

(** Every character of [s] is white space. *)
Fixpoint all_space (s : string) : bool :=
  match s with
  | EmptyString => true
  | String c rest => isspace c && all_space rest
  end.

End PyText.

(** [Key_of tonic mode] stands for music21's [Key(tonic)] and
    [Key(tonic, mode)]; [inl] is the exception it raises. *)
Definition parse_key_argument {Key : Type}
    (Key_of : string -> option string -> string + Key) (key_text : string)
  : string + Key :=
  let text := PyText.strip key_text in
  match Key_of text None with
  | inr k => inr k
  | inl _ =>
      let lowered := PyText.lower text in
      if PyText.endswith lowered "major" then
        let tonic := PyText.strip (PyText.drop_last 5 text) in
        Key_of tonic (Some "major")
      else if PyText.endswith lowered "minor" then
        let tonic := PyText.strip (PyText.drop_last 5 text) in
        Key_of tonic (Some "minor")
      else if PyText.endswith lowered "m" then
        let tonic := PyText.strip (PyText.drop_last 1 text) in
        Key_of tonic (Some "minor")
      else Key_of text None
  end.

(** A key constructor for the examples: it knows the seven natural tonics,
    takes a lower-case tonic alone as minor, and needs a mode word to be
    passed as the mode. *)
Definition toy_Key_of (tonic : string) (mode : option string)
  : string + (string * string) :=
  if existsb (String.eqb tonic) ["C"; "D"; "E"; "F"; "G"; "A"; "B"] then
    inr (tonic, match mode with Some m => m | None => "major" end)
  else if existsb (String.eqb tonic) ["c"; "d"; "e"; "f"; "g"; "a"; "b"] then
    inr (tonic, match mode with Some m => m | None => "minor" end)
  else inl ("not a key: " ++ tonic).

Example simplify_V6532 : simplify_roman_figure "V6532" = "V65".
Proof. reflexivity. Qed.

Example simplify_iv64 : simplify_roman_figure "iv64" = "iv64".
Proof. reflexivity. Qed.

Example simplify_ii : simplify_roman_figure "ii" = "ii".
Proof. reflexivity. Qed.

Example simplify_V7 : simplify_roman_figure "V7" = "V7".
Proof. reflexivity. Qed.

Example simplify_V642 : simplify_roman_figure "V642" = "V42".
Proof. reflexivity. Qed.

Example format_03d_7 : PyStr.format_03d 7 = "007".
Proof. reflexivity. Qed.

Example format_03d_1234 : PyStr.format_03d 1234 = "1234".
Proof. reflexivity. Qed.

Example quantize_example : (quantize_value (7 # 10) (1 # 4) == 3 # 4)%Q.
Proof. reflexivity. Qed.

Example quantize_tie_even : (quantize_value (1 # 8) (1 # 4) == 0)%Q.
Proof. reflexivity. Qed.

Example quantize_tie_odd : (quantize_value (3 # 8) (1 # 4) == 1 # 2)%Q.
Proof. reflexivity. Qed.

(** * Properties *)

(** ** Strings *)

Lemma prefix_iff (p s : string) :
  prefix p s = true <-> exists b, s = p ++ b.
Proof.
  revert s; induction p as [|c p IH]; intros s; simpl.
  - split; [intros _; now exists s | intros _; now destruct s].
  - destruct s as [|d s]; simpl.
    + split; [discriminate | intros [b Hb]; discriminate].
    + destruct (ascii_dec c d) as [->|Hne].
      * rewrite IH. split; intros [b Hb]; exists b; congruence.
      * split; [discriminate | intros [b Hb]; congruence].
Qed.

Lemma contains_nil (p : string) : PyStr.contains p "" = prefix p "".
Proof. simpl. apply orb_false_r. Qed.

Lemma contains_cons (p : string) (c : ascii) (s : string) :
  PyStr.contains p (String c s) = prefix p (String c s) || PyStr.contains p s.
Proof. reflexivity. Qed.

Lemma contains_iff (p s : string) :
  PyStr.contains p s = true <-> PyStr.substring_of p s.
Proof.
  unfold PyStr.substring_of.
  induction s as [|c s IH].
  - rewrite contains_nil, prefix_iff. split.
    + intros [b Hb]. now exists "", b.
    + intros [[|x a] [b Hb]]; [now exists b | discriminate].
  - rewrite contains_cons, orb_true_iff, prefix_iff, IH. split.
    + intros [[b Hb] | [a [b Hb]]].
      * now exists "", b.
      * exists (String c a), b. simpl. now rewrite Hb.
    + intros [[|x a] [b Hb]].
      * left. now exists b.
      * right. exists a, b. simpl in Hb. congruence.
Qed.

Lemma app_assoc_str (a b c : string) : (a ++ b) ++ c = a ++ (b ++ c).
Proof. induction a as [|x a IH]; simpl; [reflexivity | now rewrite IH]. Qed.

Lemma app_empty_r (a : string) : a ++ "" = a.
Proof. induction a as [|x a IH]; simpl; [reflexivity | now rewrite IH]. Qed.

Lemma app_inv_head_str (a b c : string) : a ++ b = a ++ c -> b = c.
Proof. induction a as [|x a IH]; simpl; [easy | intros H; injection H; auto]. Qed.

(** ** The split of a figure at its first digit *)

Lemma roman_root_cons (c : ascii) (s : string) :
  roman_root (String c s) =
  if PyStr.isdigit c then "" else String c (roman_root s).
Proof.
  unfold roman_root; simpl.
  destruct (PyStr.isdigit c); [reflexivity|].
  destruct (first_digit_idx s); reflexivity.
Qed.

Lemma trailing_cons (c : ascii) (s : string) :
  trailing (String c s) = if PyStr.isdigit c then String c s else trailing s.
Proof.
  unfold trailing; simpl.
  destruct (PyStr.isdigit c); [reflexivity|].
  destruct (first_digit_idx s); reflexivity.
Qed.

Lemma root_trailing (s : string) : roman_root s ++ trailing s = s.
Proof.
  induction s as [|c s IH]; [reflexivity|].
  rewrite roman_root_cons, trailing_cons.
  destruct (PyStr.isdigit c); simpl; [reflexivity | now rewrite IH].
Qed.

Lemma roman_root_digit_free (s : string) :
  PyStr.digit_free (roman_root s) = true.
Proof.
  induction s as [|c s IH]; [reflexivity|].
  rewrite roman_root_cons.
  destruct (PyStr.isdigit c) eqn:E; simpl; [reflexivity | now rewrite E].
Qed.

(** A digit-free root followed by nothing, or by text that starts with a
    digit, splits back into the two. *)
Lemma split_root_suffix (r t : string) :
  PyStr.digit_free r = true ->
  (t = "" \/ exists d t', t = String d t' /\ PyStr.isdigit d = true) ->
  roman_root (r ++ t) = r /\ trailing (r ++ t) = t.
Proof.
  intros Hr Ht. induction r as [|c r IH]; simpl.
  - destruct Ht as [-> | (d & t' & -> & Hd)]; [now split|].
    rewrite roman_root_cons, trailing_cons, Hd. now split.
  - simpl in Hr. apply andb_true_iff in Hr as [Hc Hr].
    apply negb_true_iff in Hc.
    rewrite roman_root_cons, trailing_cons, Hc.
    destruct (IH Hr) as [-> ->]. now split.
Qed.

(** A substring that starts with a digit lies in the trailing part. *)
Lemma substring_in_trailing (p figure : string) :
  (exists d p', p = String d p' /\ PyStr.isdigit d = true) ->
  PyStr.substring_of p figure ->
  PyStr.contains p (trailing figure) = true.
Proof.
  intros (d & p' & -> & Hd) (a & b & ->).
  induction a as [|c a IH]; simpl.
  - rewrite trailing_cons, Hd. apply contains_iff. now exists "", b.
  - rewrite trailing_cons. destruct (PyStr.isdigit c); [|exact IH].
    apply contains_iff. now exists (String c a), b.
Qed.

Lemma trailing_substring (p figure : string) :
  PyStr.contains p (trailing figure) = true -> PyStr.substring_of p figure.
Proof.
  rewrite contains_iff. intros (a & b & H).
  exists (roman_root figure ++ a), b.
  rewrite app_assoc_str, <- H. symmetry. apply root_trailing.
Qed.

(** ** simplify_roman_figure *)

(** The simplified figure is the root followed by one of the suffixes. *)
Lemma simplify_shape (figure : string) :
  exists s, In s suffixes /\
            simplify_roman_figure figure = roman_root figure ++ s.
Proof.
  unfold simplify_roman_figure.
  destruct (figure =? "")%string eqn:E.
  - apply String.eqb_eq in E; subst. exists "". simpl. tauto.
  - cbv zeta.
    repeat match goal with
    | |- context [if PyStr.contains ?p ?t then _ else _] =>
        destruct (PyStr.contains p t)
    end;
    eexists; (split; [|reflexivity]); simpl; tauto.
Qed.

(** A digit-free root followed by a suffix is left as it is. *)
Lemma simplify_root_suffix (r s : string) :
  PyStr.digit_free r = true -> In s suffixes ->
  simplify_roman_figure (r ++ s) = r ++ s.
Proof.
  intros Hr Hs.
  unfold simplify_roman_figure.
  destruct (r ++ s =? "")%string; [reflexivity|].
  assert (Ht : s = "" \/
               exists d t', s = String d t' /\ PyStr.isdigit d = true).
  { simpl in Hs.
    repeat (destruct Hs as [<- | Hs]; [try (now left); right; now eexists _, _|]).
    destruct Hs. }
  destruct (split_root_suffix r s Hr Ht) as [-> ->].
  simpl in Hs.
  repeat (destruct Hs as [<- | Hs]; [reflexivity|]).
  destruct Hs.
Qed.

Lemma in_seventh_digit (code : string) :
  In code seventh_codes ->
  exists d p', code = String d p' /\ PyStr.isdigit d = true.
Proof.
  simpl. intros H.
  repeat (destruct H as [<- | H]; [now eexists _, _|]).
  destruct H.
Qed.

(** C9: a figure that contains "65" simplifies to its root followed by "65",
    so the result ends in "65" and is not the root followed by "6" alone;
    simplify("V6532") is "V65"; and a figure that contains any of the
    seventh-chord codes "65", "43", "42", "7" gets one of these four as its
    suffix, whatever triad code "64" or "6" it also contains. *)
Theorem simplify_seventh_priority :
  (forall figure,
     PyStr.substring_of "65" figure ->
     simplify_roman_figure figure = roman_root figure ++ "65" /\
     PyStr.ends_with (simplify_roman_figure figure) "65" /\
     simplify_roman_figure figure <> roman_root figure ++ "6") /\
  simplify_roman_figure "V6532" = "V65" /\
  (forall figure code,
     In code seventh_codes -> PyStr.substring_of code figure ->
     exists s, In s seventh_codes /\
               simplify_roman_figure figure = roman_root figure ++ s /\
               ~ In s triad_codes).
Proof.
  split; [|split; [reflexivity|]].
  - intros figure H.
    assert (Hc : PyStr.contains "65" (trailing figure) = true).
    { apply substring_in_trailing; [now eexists _, _ | exact H]. }
    assert (Hs : simplify_roman_figure figure = roman_root figure ++ "65").
    { unfold simplify_roman_figure.
      destruct (figure =? "")%string eqn:E.
      - apply String.eqb_eq in E; subst. discriminate Hc.
      - cbv zeta. now rewrite Hc. }
    split; [exact Hs|]. split.
    + rewrite Hs. now exists (roman_root figure).
    + rewrite Hs. intros Heq. apply app_inv_head_str in Heq. discriminate.
  - intros figure code Hcode Hsub.
    assert (Hc : PyStr.contains code (trailing figure) = true).
    { apply substring_in_trailing; [now apply in_seventh_digit | exact Hsub]. }
    unfold simplify_roman_figure.
    destruct (figure =? "")%string eqn:E.
    { apply String.eqb_eq in E; subst.
      apply in_seventh_digit in Hcode as (d & p' & -> & _). discriminate Hc. }
    cbv zeta.
    destruct (PyStr.contains "65" (trailing figure)) eqn:E65;
      [exists "65"; simpl; intuition discriminate|].
    destruct (PyStr.contains "43" (trailing figure)) eqn:E43;
      [exists "43"; simpl; intuition discriminate|].
    destruct (PyStr.contains "42" (trailing figure)) eqn:E42;
      [exists "42"; simpl; intuition discriminate|].
    destruct (PyStr.contains "7" (trailing figure)) eqn:E7;
      [exists "7"; simpl; intuition discriminate|].
    exfalso. simpl in Hcode.
    destruct Hcode as [<- | [<- | [<- | [<- | []]]]]; congruence.
Qed.

Lemma simplify_seventh_priority_witness :
  PyStr.substring_of "65" "V6532" /\
  simplify_roman_figure "V6532" = roman_root "V6532" ++ "65" /\
  PyStr.ends_with (simplify_roman_figure "V6532") "65".
Proof.
  assert (H : PyStr.substring_of "65" "V6532").
  { exists "V", "32". reflexivity. }
  split; [exact H|].
  destruct (proj1 simplify_seventh_priority "V6532" H) as [H1 [H2 _]].
  split; [exact H1 | exact H2].
Defined.

(** C10: the simplifier is idempotent; its output is a digit-free root
    followed by one of "65", "43", "42", "7", "64", "6" or nothing, and
    such a text, like each suffix on its own, simplifies to itself. *)
Theorem simplify_idempotent (f : string) :
  simplify_roman_figure (simplify_roman_figure f) = simplify_roman_figure f /\
  (exists r s,
     simplify_roman_figure f = r ++ s /\
     PyStr.digit_free r = true /\
     In s ["65"; "43"; "42"; "7"; "64"; "6"; ""] /\
     simplify_roman_figure s = s).
Proof.
  destruct (simplify_shape f) as (s & Hs & Heq).
  split.
  - rewrite Heq.
    apply simplify_root_suffix; [apply roman_root_digit_free | exact Hs].
  - exists (roman_root f), s.
    split; [exact Heq|]. split; [apply roman_root_digit_free|].
    split; [exact Hs|].
    apply (simplify_root_suffix "" s); [reflexivity | exact Hs].
Qed.

(** ** Rounding and quantize_value *)

Section Quantize.

Local Open Scope Q_scope.

Lemma floor_bounds (x : Q) :
  inject_Z (Qfloor x) <= x /\ x < inject_Z (Qfloor x) + 1.
Proof.
  split; [apply Qfloor_le|].
  pose proof (Qlt_floor x) as H.
  rewrite inject_Z_plus in H. exact H.
Qed.

Lemma py_round_floor (x : Q) :
  (Qfloor x <= py_round x <= Qfloor x + 1)%Z.
Proof.
  unfold py_round.
  destruct (x - inject_Z (Qfloor x) ?= 1 # 2); [destruct (Z.even _)| |]; lia.
Qed.

(** The rounded value is within one half of the argument. *)
Lemma py_round_near (x : Q) :
  x - (1 # 2) <= inject_Z (py_round x) <= x + (1 # 2).
Proof.
  destruct (floor_bounds x) as [Hl Hu].
  unfold py_round.
  destruct (Qcompare_spec (x - inject_Z (Qfloor x)) (1 # 2)) as [E|E|E].
  - destruct (Z.even (Qfloor x)); [|rewrite inject_Z_plus];
      change (inject_Z 1) with 1; lra.
  - lra.
  - rewrite inject_Z_plus. change (inject_Z 1) with 1. lra.
Qed.

Lemma py_round_mono (x y : Q) : x <= y -> (py_round x <= py_round y)%Z.
Proof.
  intros Hxy.
  pose proof (Qfloor_resp_le x y Hxy) as Hf.
  destruct (Z.eq_dec (Qfloor x) (Qfloor y)) as [E|E].
  - unfold py_round. rewrite <- E.
    destruct (floor_bounds x) as [Hl Hu].
    destruct (Qcompare_spec (x - inject_Z (Qfloor x)) (1 # 2)) as [E1|E1|E1];
    destruct (Qcompare_spec (y - inject_Z (Qfloor x)) (1 # 2)) as [E2|E2|E2];
    try destruct (Z.even (Qfloor x)); try lia; exfalso; lra.
  - pose proof (py_round_floor x). pose proof (py_round_floor y). lia.
Qed.

Lemma quantize_off (v g : Q) : g <= 0 -> quantize_value v g = v.
Proof.
  intros Hg. unfold quantize_value.
  apply Qle_bool_iff in Hg. now rewrite Hg.
Qed.

Lemma quantize_on (v g : Q) :
  0 < g -> quantize_value v g = inject_Z (py_round (v / g)) * g.
Proof.
  intros Hg. unfold quantize_value.
  destruct (Qle_bool g 0) eqn:E; [|reflexivity].
  apply Qle_bool_iff in E. lra.
Qed.

Lemma quantize_mono_on (v1 v2 g : Q) :
  0 < g -> v1 <= v2 -> quantize_value v1 g <= quantize_value v2 g.
Proof.
  intros Hg Hv. rewrite !quantize_on by exact Hg.
  apply Qmult_le_compat_r; [|lra].
  rewrite <- Zle_Qle. apply py_round_mono.
  unfold Qdiv. apply Qmult_le_compat_r; [exact Hv|].
  apply Qlt_le_weak, Qinv_lt_0_compat, Hg.
Qed.

(** Monotone for every grid, the disabled one included. *)
Lemma quantize_mono (v1 v2 g : Q) :
  v1 <= v2 -> quantize_value v1 g <= quantize_value v2 g.
Proof.
  intros Hv. destruct (Qlt_le_dec 0 g) as [Hg|Hg].
  - now apply quantize_mono_on.
  - now rewrite !quantize_off.
Qed.

End Quantize.

(** C6: for a grid that is zero or negative, quantize_value returns the value
    unchanged. *)
Theorem quantize_disabled (v g : Q) :
  (g <= 0)%Q -> quantize_value v g = v.
Proof. apply quantize_off. Qed.

Lemma quantize_disabled_witness :
  (-(1 # 2) <= 0)%Q /\ quantize_value (7 # 10) (-(1 # 2)) = (7 # 10)%Q.
Proof.
  assert (H : (-(1 # 2) <= 0)%Q) by (unfold Qle; simpl; lia).
  split; [exact H | exact (quantize_disabled (7 # 10) (-(1 # 2)) H)].
Defined.

(** C7: for a positive grid, quantize_value is round(value / grid) * grid,
    with round to the nearest integer and ties to the even one; in exact
    arithmetic the result is an integer multiple of the grid, the one
    nearest to the value (at most half a grid step away). *)
Theorem quantize_multiple (v g : Q) :
  (0 < g)%Q ->
  quantize_value v g = (inject_Z (py_round (v / g)) * g)%Q /\
  (exists k : Z, quantize_value v g = (inject_Z k * g)%Q) /\
  (v - g / 2 <= quantize_value v g <= v + g / 2)%Q.
Proof.
  intros Hg. rewrite quantize_on by exact Hg.
  split; [reflexivity|]. split; [now exists (py_round (v / g))|].
  pose proof (py_round_near (v / g)) as [Hl Hu].
  assert (Hg0 : ~ (g == 0)%Q) by (intros H0; rewrite H0 in Hg; discriminate).
  assert (Hv : (v / g * g == v)%Q) by (field; exact Hg0).
  assert (H1 : ((v / g - (1 # 2)) * g <= inject_Z (py_round (v / g)) * g)%Q)
    by (apply Qmult_le_compat_r; lra).
  assert (H2 : (inject_Z (py_round (v / g)) * g <= (v / g + (1 # 2)) * g)%Q)
    by (apply Qmult_le_compat_r; lra).
  assert (E1 : ((v / g - (1 # 2)) * g == v - g / 2)%Q)
    by (field; exact Hg0).
  assert (E2 : ((v / g + (1 # 2)) * g == v + g / 2)%Q)
    by (field; exact Hg0).
  rewrite E1 in H1. rewrite E2 in H2. split; assumption.
Qed.

Lemma quantize_multiple_witness :
  (0 < 1 # 4)%Q /\
  quantize_value (7 # 10) (1 # 4) =
    (inject_Z (py_round ((7 # 10) / (1 # 4))) * (1 # 4))%Q /\
  py_round ((7 # 10) / (1 # 4)) = 3%Z.
Proof.
  assert (H : (0 < 1 # 4)%Q) by reflexivity.
  split; [exact H|].
  split; [exact (proj1 (quantize_multiple (7 # 10) (1 # 4) H)) | reflexivity].
Defined.

(** ** The loop of analyze_chords *)

Section Loop.

Local Open Scope list_scope.

Context {Key : Type}.
Variable rn : ChordData -> Key -> option string.
Variable key : Key.
Variable grid : Q.
Variable dedupe : bool.
Variable min_notes : Z.

Local Abbreviation step := (analyze_step rn key grid dedupe min_notes).
Local Abbreviation one := (analyze_one rn key grid dedupe min_notes).
Local Abbreviation emit := (emitted rn key grid dedupe min_notes).

(** One iteration either leaves the state alone or appends one record. *)
Lemma analyze_step_one (st : LoopState) (element : Music21Object) :
  step st element =
  match one (last_roman st) (idx st) element with
  | Some r => {| results := results st ++ [r];
                 last_roman := Some (roman r);
                 idx := (idx st + 1)%Z |}
  | None => st
  end.
Proof.
  unfold analyze_step, analyze_one, roman_of_chord.
  destruct element as [| p | ch]; simpl; try reflexivity.
  destruct (Z.of_nat (List.length (pitches ch)) >=? min_notes)%Z; simpl;
    [|reflexivity].
  destruct (rn ch key) as [f|]; [|reflexivity].
  destruct (dedupe && last_roman_is (last_roman st) f); reflexivity.
Qed.

Lemma fold_emitted (elements : list Music21Object) (st : LoopState) :
  results (fold_left step elements st) =
  results st ++ emit (last_roman st) (idx st) elements.
Proof.
  revert st. induction elements as [|e rest IH]; intros st; simpl.
  - now rewrite app_nil_r.
  - rewrite IH, analyze_step_one.
    destruct (one (last_roman st) (idx st) e) as [r|]; simpl;
      [|reflexivity].
    now rewrite <- app_assoc.
Qed.

Lemma analyze_elements_emitted (elements : list Music21Object) :
  analyze_elements rn key grid dedupe min_notes elements =
  emit None 1%Z elements.
Proof. unfold analyze_elements. now rewrite (fold_emitted elements loop_init). Qed.

(** Where an appended record comes from. *)
Lemma analyze_one_Some (last : option string) (i : Z)
    (element : Music21Object) (r : AnalyzedChord) :
  one last i element = Some r ->
  exists ch,
    element = Chord ch /\
    is_harmonic_chord element min_notes = true /\
    rn ch key = Some (roman r) /\
    (dedupe = true -> last <> Some (roman r)) /\
    index r = i /\
    offset_quarter r = quantize_value (chord_offset ch) grid /\
    roman_simple r = simplify_roman_figure (roman r) /\
    duration_quarter r = fallback_duration (source_duration ch) grid /\
    pitch_names r = pitches ch.
Proof.
  unfold analyze_one.
  destruct element as [| p | ch]; try discriminate.
  destruct (is_harmonic_chord (Chord ch) min_notes) eqn:Hh; [|discriminate].
  destruct (rn ch key) as [f|] eqn:Hrn; [|discriminate].
  destruct (dedupe && last_roman_is last f) eqn:E; [discriminate|].
  intros H; injection H as <-; simpl.
  exists ch. repeat split; try reflexivity; try assumption.
  intros -> ->. simpl in E. now rewrite String.eqb_refl in E.
Qed.

(** A property of every record appended along the stream. *)
Lemma emitted_Forall (P : AnalyzedChord -> Prop)
    (elements : list Music21Object) :
  (forall last i e r, In e elements -> one last i e = Some r -> P r) ->
  forall last i, Forall P (emit last i elements).
Proof.
  induction elements as [|e rest IH]; intros HP last i; simpl.
  - constructor.
  - destruct (one last i e) as [r|] eqn:E.
    + constructor.
      * apply (HP last i e r); [now left | exact E].
      * apply IH. intros l j e' r' Hin. apply HP. now right.
    + apply IH. intros l j e' r' Hin. apply HP. now right.
Qed.

Lemma emitted_index (elements : list Music21Object) :
  forall last i,
    map index (emit last i elements) =
    count_from i (List.length (emit last i elements)).
Proof.
  induction elements as [|e rest IH]; intros last i; simpl; [reflexivity|].
  destruct (one last i e) as [r|] eqn:E; [|apply IH].
  simpl. apply analyze_one_Some in E as (ch & _ & _ & _ & _ & Hi & _).
  rewrite Hi. f_equal. apply IH.
Qed.

Lemma emitted_roman_simple (elements : list Music21Object) (last : option string) (i : Z) :
  Forall (fun r => roman_simple r = simplify_roman_figure (roman r))
         (emit last i elements).
Proof.
  apply emitted_Forall. intros l j e r _ E.
  apply analyze_one_Some in E as (ch & _ & _ & _ & _ & _ & _ & H & _).
  exact H.
Qed.

Lemma emitted_offsets (P : Q -> Prop) (elements : list Music21Object) :
  Forall P (map (fun o => quantize_value o grid) (chord_offsets elements)) ->
  forall last i, Forall P (map offset_quarter (emit last i elements)).
Proof.
  induction elements as [|e rest IH]; intros HP last i; simpl.
  - constructor.
  - destruct (one last i e) as [r|] eqn:E.
    + apply analyze_one_Some in E as (ch & -> & _ & _ & _ & _ & Ho & _).
      simpl in HP. inversion HP as [|x l Hx Hl]; subst.
      simpl. constructor; [now rewrite Ho | now apply IH].
    + apply IH. destruct e as [| p | ch]; simpl in HP; try exact HP.
      now inversion HP.
Qed.

Lemma emitted_non_decreasing (elements : list Music21Object) :
  non_decreasing (chord_offsets elements) ->
  forall last i, non_decreasing (map offset_quarter (emit last i elements)).
Proof.
  induction elements as [|e rest IH]; intros Hs last i; simpl; [exact I|].
  destruct (one last i e) as [r|] eqn:E.
  - apply analyze_one_Some in E as (ch & -> & _ & _ & _ & _ & Ho & _).
    simpl in Hs. destruct Hs as [Hall Hs].
    simpl. split; [|now apply IH].
    apply emitted_offsets. rewrite Ho.
    apply Forall_map. revert Hall. apply Forall_impl.
    intros o Ho'. now apply quantize_mono.
  - apply IH. destruct e as [| p | ch]; simpl in Hs; try exact Hs.
    apply Hs.
Qed.

End Loop.

(** ** Indices and figures of the emitted records *)

Section Emitted.

Local Open Scope list_scope.

Context {Key : Type}.
Variable rn : ChordData -> Key -> option string.
Variable key : Key.
Variable grid : Q.
Variable min_notes : Z.

Lemma count_from_seq (a n : nat) :
  count_from (Z.of_nat a) n = map Z.of_nat (seq a n).
Proof.
  revert a. induction n as [|n IH]; intros a; simpl; [reflexivity|].
  f_equal. rewrite <- IH. f_equal. lia.
Qed.

Lemma count_from_ge (s z : Z) (n : nat) :
  In z (count_from s n) -> (s <= z)%Z.
Proof.
  revert s. induction n as [|n IH]; intros s; simpl; [easy|].
  intros [<- | H]; [lia|]. apply IH in H. lia.
Qed.

(** With dedupe on, no emitted figure equals the one emitted before it. *)
Lemma emitted_no_repeat (elements : list Music21Object) :
  forall last i,
    no_repeat last
      (map roman (emitted rn key grid true min_notes last i elements)).
Proof.
  induction elements as [|e rest IH]; intros last i; simpl; [exact I|].
  destruct (analyze_one rn key grid true min_notes last i e) as [r|] eqn:E;
    [|apply IH].
  simpl. split; [|apply IH].
  apply analyze_one_Some in E as (ch & _ & _ & _ & Hd & _). now apply Hd.
Qed.

(** The emitted figures are the candidate figures, deduplicated when
    dedupe is on: nothing else decides what is dropped. *)
Lemma emitted_romans (dedupe : bool) (elements : list Music21Object) :
  forall last i,
    map roman (emitted rn key grid dedupe min_notes last i elements) =
    if dedupe
    then dedupe_figures last (candidate_figures rn key min_notes elements)
    else candidate_figures rn key min_notes elements.
Proof.
  induction elements as [|e rest IH]; intros last i.
  - now destruct dedupe.
  - destruct e as [| p | ch]; simpl; try apply IH.
    destruct (Z.of_nat (List.length (pitches ch)) >=? min_notes)%Z;
      [|apply IH].
    destruct (rn ch key) as [f|]; [|apply IH].
    destruct dedupe; simpl.
    + destruct (last_roman_is last f); simpl; [apply (IH last i)|].
      f_equal. apply (IH (Some f)).
    + f_equal. apply (IH (Some f)).
Qed.

(** Records whose indices count up and whose figures never repeat: two
    of them with consecutive indices have different figures. *)
Lemma consecutive_distinct (l : list AnalyzedChord) :
  forall prev start,
    map index l = count_from start (List.length l) ->
    no_repeat prev (map roman l) ->
    forall r1 r2, In r1 l -> In r2 l ->
                  index r2 = (index r1 + 1)%Z -> roman r1 <> roman r2.
Proof.
  induction l as [|x l IH]; intros prev start Hidx Hrep r1 r2 H1 H2 Hadj;
    [destruct H1|].
  simpl in Hidx. injection Hidx as Hx Hl.
  simpl in Hrep. destruct Hrep as [_ Hrep].
  assert (Hge : forall r, In r l -> (start + 1 <= index r)%Z).
  { intros r Hr. apply (count_from_ge _ _ (List.length l)).
    rewrite <- Hl. now apply in_map. }
  destruct H1 as [<- | H1]; destruct H2 as [<- | H2].
  - lia.
  - destruct l as [|y l']; [destruct H2|].
    simpl in Hl. injection Hl as Hy Hl'.
    simpl in Hrep. destruct Hrep as [Hxy _].
    destruct H2 as [<- | H2]; [congruence|].
    assert (In (index r2) (count_from (start + 1 + 1) (List.length l'))).
    { rewrite <- Hl'. now apply in_map. }
    apply count_from_ge in H. lia.
  - apply Hge in H1. lia.
  - now apply (IH (Some (roman x)) (start + 1)%Z Hl Hrep).
Qed.

End Emitted.

(** C4: whatever the stream, the grid, the dedupe flag and the threshold,
    the indices of the emitted records are 1, 2, ..., N in emission order,
    N being the number of emitted records. *)
Theorem index_contiguous {Key : Type}
    (rn : ChordData -> Key -> option string) (key : Key)
    (grid : Q) (dedupe : bool) (min_notes : Z)
    (elements : list Music21Object) :
  let out := analyze_elements rn key grid dedupe min_notes elements in
  map index out = map Z.of_nat (seq 1 (List.length out)).
Proof.
  cbv zeta. rewrite analyze_elements_emitted, emitted_index.
  apply (count_from_seq 1).
Qed.

(** C5: every emitted record has a strictly positive duration, which is the
    source duration when that is positive, else the grid when the grid is
    positive, else 0.25; a source duration 0 gives 0.5 with grid 0.5 and
    0.25 with grid 0. *)
Theorem duration_positive {Key : Type}
    (rn : ChordData -> Key -> option string) (key : Key)
    (grid : Q) (dedupe : bool) (min_notes : Z)
    (elements : list Music21Object) (r : AnalyzedChord) :
  In r (analyze_elements rn key grid dedupe min_notes elements) ->
  (0 < duration_quarter r)%Q /\
  (exists ch,
     In (Chord ch) elements /\
     duration_quarter r = fallback_duration (source_duration ch) grid) /\
  (forall d g, (0 < d)%Q -> fallback_duration d g = d) /\
  (forall d g, (d <= 0)%Q -> (0 < g)%Q -> fallback_duration d g = g) /\
  (forall d g, (d <= 0)%Q -> (g <= 0)%Q ->
               fallback_duration d g = (1 # 4)%Q) /\
  fallback_duration 0 (1 # 2) = (1 # 2)%Q /\
  fallback_duration 0 0 = (1 # 4)%Q.
Proof.
  intros Hin.
  assert (Hpos : forall d g, (0 < d)%Q -> fallback_duration d g = d).
  { intros d g Hd. unfold fallback_duration.
    destruct (Qle_bool d 0) eqn:E; [|reflexivity].
    apply Qle_bool_iff in E. lra. }
  assert (Hgrid : forall d g, (d <= 0)%Q -> (0 < g)%Q ->
                              fallback_duration d g = g).
  { intros d g Hd Hg. unfold fallback_duration, Qltb.
    apply Qle_bool_iff in Hd. rewrite Hd.
    destruct (Qeq_bool g 0) eqn:E0.
    - apply Qeq_bool_iff in E0. lra.
    - destruct (Qle_bool g 0) eqn:E1; [|reflexivity].
      apply Qle_bool_iff in E1. lra. }
  assert (Hquarter : forall d g, (d <= 0)%Q -> (g <= 0)%Q ->
                                 fallback_duration d g = (1 # 4)%Q).
  { intros d g Hd Hg. unfold fallback_duration, Qltb.
    apply Qle_bool_iff in Hd. rewrite Hd.
    apply Qle_bool_iff in Hg. rewrite Hg.
    now rewrite andb_false_r. }
  assert (Hsrc : exists ch,
             In (Chord ch) elements /\
             duration_quarter r = fallback_duration (source_duration ch) grid).
  { rewrite analyze_elements_emitted in Hin.
    pose proof (emitted_Forall rn key grid dedupe min_notes
                  (fun r => exists ch, In (Chord ch) elements /\
                     duration_quarter r =
                     fallback_duration (source_duration ch) grid)
                  elements) as HF.
    eapply Forall_forall in HF; [exact HF | | exact Hin].
    intros last i e r' He E.
    apply analyze_one_Some in E
      as (ch & -> & _ & _ & _ & _ & _ & _ & Hd & _).
    now exists ch. }
  repeat split; try assumption; try reflexivity.
  destruct Hsrc as (ch & _ & ->).
  destruct (Qlt_le_dec 0 (source_duration ch)) as [Hd|Hd].
  - now rewrite Hpos.
  - destruct (Qlt_le_dec 0 grid) as [Hg|Hg].
    + now rewrite Hgrid.
    + now rewrite Hquarter.
Qed.

Lemma duration_positive_witness :
  let out := analyze_elements toy_roman tt (1 # 2) false 3 toy_stream in
  let r := nth 3 out (mkAnalyzedChord 0 0 "" "" 0 []) in
  In r out /\ (0 < duration_quarter r)%Q /\
  duration_quarter r = (1 # 2)%Q.
Proof.
  cbv zeta.
  assert (H : In (nth 3 (analyze_elements toy_roman tt (1 # 2) false 3 toy_stream)
                      (mkAnalyzedChord 0 0 "" "" 0 []))
                 (analyze_elements toy_roman tt (1 # 2) false 3 toy_stream)).
  { apply nth_In. vm_compute. lia. }
  split; [exact H|].
  split; [|reflexivity].
  exact (proj1 (duration_positive toy_roman tt (1 # 2) false 3 toy_stream _ H)).
Defined.

(** ** Deduplication *)

Lemma map_roman_simple (l : list AnalyzedChord) :
  Forall (fun r => roman_simple r = simplify_roman_figure (roman r)) l ->
  map roman_simple l = map simplify_roman_figure (map roman l).
Proof.
  induction 1 as [|r l Hr _ IH]; simpl; [reflexivity|].
  now rewrite Hr, IH.
Qed.

(** C3: with dedupe on, two emitted records with consecutive indices never
    have the same detailed figure; candidate figures I I V V V I give the
    figures I V I with indices 1 2 3; what is emitted is decided by the
    detailed figures alone, so V65 followed by V6532 are both kept though
    both simplify to V65. *)
Theorem dedupe_no_adjacent_repeat {Key : Type}
    (rn : ChordData -> Key -> option string) (key : Key)
    (grid : Q) (min_notes : Z) (elements : list Music21Object) :
  let out := analyze_elements rn key grid true min_notes elements in
  let figures := candidate_figures rn key min_notes elements in
  (forall r1 r2, In r1 out -> In r2 out ->
                 index r2 = (index r1 + 1)%Z -> roman r1 <> roman r2) /\
  (figures = ["I"; "I"; "V"; "V"; "V"; "I"] ->
   map roman out = ["I"; "V"; "I"] /\ map index out = [1; 2; 3]%Z) /\
  map roman out = dedupe_figures None figures /\
  (figures = ["V65"; "V6532"] ->
   map roman out = ["V65"; "V6532"] /\
   map roman_simple out = ["V65"; "V65"]).
Proof.
  cbv zeta.
  assert (Hrom : map roman (analyze_elements rn key grid true min_notes elements)
                 = dedupe_figures None
                     (candidate_figures rn key min_notes elements)).
  { rewrite analyze_elements_emitted.
    apply (emitted_romans rn key grid min_notes true). }
  assert (Hidx : map index (analyze_elements rn key grid true min_notes elements)
                 = count_from 1
                     (List.length (map roman
                        (analyze_elements rn key grid true min_notes elements)))).
  { rewrite length_map, analyze_elements_emitted. apply emitted_index. }
  split; [|split; [|split]].
  - rewrite analyze_elements_emitted.
    apply (consecutive_distinct _ None 1%Z).
    + apply emitted_index.
    + apply emitted_no_repeat.
  - intros Hf. rewrite Hidx, Hrom, Hf. split; reflexivity.
  - exact Hrom.
  - intros Hf. split; [rewrite Hrom, Hf; reflexivity|].
    rewrite map_roman_simple, Hrom, Hf; [reflexivity|].
    rewrite analyze_elements_emitted. apply emitted_roman_simple.
Qed.

Lemma dedupe_no_adjacent_repeat_witness :
  let out := analyze_elements toy_roman tt (1 # 4) true 3 toy_stream in
  candidate_figures toy_roman tt 3 toy_stream =
    ["I"; "I"; "V"; "V"; "V"; "I"] /\
  map roman out = ["I"; "V"; "I"] /\ map index out = [1; 2; 3]%Z.
Proof.
  cbv zeta.
  assert (H : candidate_figures toy_roman tt 3 toy_stream =
              ["I"; "I"; "V"; "V"; "V"; "I"]) by reflexivity.
  split; [exact H|].
  exact (proj1 (proj2 (dedupe_no_adjacent_repeat
                         toy_roman tt (1 # 4) 3 toy_stream)) H).
Defined.

(** ** Order of the offsets *)

(** For a positive grid, quantize_value is monotone, and so elements whose
    offsets, as read, never decrease (the chords of one measure, or of a
    part without measures) give records whose offsets never decrease. *)
Lemma quantize_monotone (g : Q) :
  (0 < g)%Q ->
  (forall v1 v2, (v1 <= v2)%Q ->
                 (quantize_value v1 g <= quantize_value v2 g)%Q) /\
  (forall (Key : Type) (rn : ChordData -> Key -> option string) (key : Key)
          (dedupe : bool) (min_notes : Z) (elements : list Music21Object),
     non_decreasing (chord_offsets elements) ->
     non_decreasing
       (map offset_quarter
            (analyze_elements rn key g dedupe min_notes elements))).
Proof.
  intros Hg. split.
  - intros v1 v2. now apply quantize_mono_on.
  - intros Key rn key dedupe min_notes elements Hs.
    rewrite analyze_elements_emitted. now apply emitted_non_decreasing.
Qed.

Lemma quantize_monotone_witness :
  (0 < 1 # 4)%Q /\
  non_decreasing (chord_offsets toy_stream) /\
  non_decreasing
    (map offset_quarter
         (analyze_elements toy_roman tt (1 # 4) false 3 toy_stream)).
Proof.
  assert (Hg : (0 < 1 # 4)%Q) by reflexivity.
  assert (Hs : non_decreasing (chord_offsets toy_stream)).
  { simpl. repeat split; repeat constructor; unfold Qle; simpl; lia. }
  split; [exact Hg|]. split; [exact Hs|].
  exact (proj2 (quantize_monotone (1 # 4) Hg) unit toy_roman tt false 3%Z
               toy_stream Hs).
Defined.

(** C8: quantize_value is monotone for a positive grid, but the offsets
    of the records are not the onsets of the chords in the piece: they are
    the quantized [offset] values of the chords as [recurse()] presents
    them, each counted from the start of the chord's own measure.  In two
    bars of four quarters, with a chord on the last beat of the first bar
    and one on the first beat of the second, the chords sound at 3 and at
    4, in time order, and the records carry the offsets 3 and 0, which
    decrease. *)
Theorem offsets_restart_at_measure :
  let out :=
    analyze_elements toy_roman tt (1 # 4) false 3 (notesAndRests two_bars) in
  Forall2 Qeq (chord_onsets two_bars) [3; 4]%Q /\
  non_decreasing (chord_onsets two_bars) /\
  Forall2 Qeq (map offset_quarter out) [3; 0]%Q /\
  ~ non_decreasing (map offset_quarter out).
Proof.
  cbv zeta. split; [|split; [|split]].
  - repeat constructor.
  - simpl. repeat split; repeat constructor. unfold Qle; simpl; lia.
  - repeat constructor.
  - intros [H _]. inversion H as [|x l Hle _]; subst.
    revert Hle. unfold Qle. simpl. lia.
Qed.

(** ** The chord filter *)

(** The test of the filter is on the number of entries of the pitch tuple;
    when no pitch is named twice this is the number of distinct pitches. *)
Lemma chord_filter_counts_pitches (element : Music21Object) (min_notes : Z) :
  (is_harmonic_chord element min_notes = true <->
   exists ch, element = Chord ch /\
              (min_notes <= Z.of_nat (List.length (pitches ch)))%Z) /\
  (forall ch, element = Chord ch -> NoDup (pitches ch) ->
     (is_harmonic_chord element min_notes = true <->
      (min_notes <= Z.of_nat (distinct_pitches (pitches ch)))%Z)) /\
  is_harmonic_chord Rest min_notes = false /\
  (forall p, is_harmonic_chord (Note p) min_notes = false).
Proof.
  split; [|split; [|split; [reflexivity | reflexivity]]].
  - destruct element as [| p | ch]; simpl.
    + split; [discriminate | intros (ch & H & _); discriminate].
    + split; [discriminate | intros (ch & H & _); discriminate].
    + rewrite Z.geb_le. split.
      * intros H. now exists ch.
      * intros (ch' & H & Hle). now injection H as <-.
  - intros ch -> Hnd. unfold distinct_pitches.
    rewrite (nodup_fixed_point string_dec Hnd). simpl. apply Z.geb_le.
Qed.

(** C2: for every element of the reduced stream (the pitches of a chord
    form a set) and every threshold, the filter accepts the element if and
    only if it is a chord and the number of distinct pitches of its set is
    at least the threshold; a rest or a single note is never accepted. *)
Theorem chord_filter_pitch_set (element : Music21Object) (min_notes : Z) :
  reduced_stream_element element ->
  (is_harmonic_chord element min_notes = true <->
   exists ch, element = Chord ch /\
              (min_notes <= Z.of_nat (distinct_pitches (pitches ch)))%Z) /\
  is_harmonic_chord Rest min_notes = false /\
  (forall p, is_harmonic_chord (Note p) min_notes = false).
Proof.
  intros Hset. split; [|split; reflexivity].
  destruct element as [| p | ch]; simpl in *.
  - split; [discriminate | intros (ch & H & _); discriminate].
  - split; [discriminate | intros (ch & H & _); discriminate].
  - rewrite Z.geb_le. split.
    + intros H. exists ch. split; [reflexivity|].
      unfold distinct_pitches.
      now rewrite (nodup_fixed_point string_dec Hset).
    + intros (ch' & H & Hle). injection H as <-.
      unfold distinct_pitches in Hle.
      now rewrite (nodup_fixed_point string_dec Hset) in Hle.
Qed.

Lemma chord_filter_pitch_set_witness :
  reduced_stream_element (tonic_chord 0 1) /\
  is_harmonic_chord (tonic_chord 0 1) 3 = true /\
  reduced_stream_element (triad 0 1 ["C4"; "G4"]) /\
  is_harmonic_chord (triad 0 1 ["C4"; "G4"]) 3 <> true /\
  is_harmonic_chord (triad 0 1 ["C4"; "G4"]) 2 = true.
Proof.
  assert (H3 : reduced_stream_element (tonic_chord 0 1)).
  { simpl. repeat constructor; simpl; intuition discriminate. }
  assert (H2 : reduced_stream_element (triad 0 1 ["C4"; "G4"])).
  { simpl. repeat constructor; simpl; intuition discriminate. }
  split; [exact H3|]. split; [|split; [exact H2|split]].
  - apply (proj1 (chord_filter_pitch_set (tonic_chord 0 1) 3 H3)).
    eexists. split; [reflexivity|]. vm_compute. discriminate.
  - intros H.
    apply (proj1 (chord_filter_pitch_set (triad 0 1 ["C4"; "G4"]) 3 H2)) in H
      as (ch & Hch & Hle).
    injection Hch as <-. vm_compute in Hle. now apply Hle.
  - apply (proj1 (chord_filter_pitch_set (triad 0 1 ["C4"; "G4"]) 2 H2)).
    eexists. split; [reflexivity|]. vm_compute. discriminate.
Defined.

(** ** Export failures *)

Section ExportLoop.

Variable write_midi : list string -> Q -> Z -> string -> option string.
Variable path_join : string -> string -> string.
Variable export_dir : string.

Local Abbreviation export := (export_chord_midis write_midi path_join export_dir).
Local Abbreviation attempt := (write_entry write_midi path_join export_dir).
Local Abbreviation target := (snippet_path path_join export_dir).

(** The loop stops at the first entry whose write raises: the entries
    before it are written, the ones after it are not tried. *)
Lemma export_stops (pre post : list AnalyzedChord) (bad : AnalyzedChord)
    (exc : string) :
  (forall e, In e pre -> attempt e = None) ->
  attempt bad = Some exc ->
  export (pre ++ bad :: post)%list = (map target pre, Some exc).
Proof.
  intros Hpre Hbad. induction pre as [|e pre IH]; simpl.
  - unfold write_entry, snippet_path in Hbad. now rewrite Hbad.
  - assert (He : attempt e = None) by (apply Hpre; now left).
    unfold write_entry, snippet_path in He. rewrite He.
    rewrite IH; [reflexivity|]. intros e' He'. apply Hpre. now right.
Qed.

Lemma export_all (analyzed : list AnalyzedChord) :
  (forall e, In e analyzed -> attempt e = None) ->
  export analyzed = (map target analyzed, None).
Proof.
  intros Hok. induction analyzed as [|e rest IH]; simpl; [reflexivity|].
  assert (He : attempt e = None) by (apply Hok; now left).
  unfold write_entry, snippet_path in He. rewrite He.
  rewrite IH; [reflexivity|]. intros e' He'. apply Hok. now right.
Qed.

End ExportLoop.

Section Report.

Context {Key Score : Type}.
Variable env : Env Key Score.
Variable args : Args.

(** Without [--limit], one row is printed for each record. *)
Lemma print_rows_all (analyzed : list AnalyzedChord) (count : Z) :
  arg_limit args = None ->
  print_rows env args analyzed count =
  (map (fun entry => format_row env entry (arg_bpm args) (arg_show_notes args))
       analyzed,
   (count + Z.of_nat (List.length analyzed))%Z).
Proof.
  intros Hlim. revert count.
  induction analyzed as [|e rest IH]; intros count; simpl.
  - f_equal. lia.
  - rewrite Hlim, IH. f_equal. lia.
Qed.

(** C1, as the code has it: when the write of one record's snippet raises,
    the run goes on to exit code 0 with one warning on standard error; the
    snippets of the records before that one are written and those of the
    records after it are not; the table printed is the one of all the
    records, one row each when no limit is given. *)
Theorem export_failure_is_warning
    (key_override : option Key) (effective_key : Key)
    (pre post : list AnalyzedChord) (bad : AnalyzedChord) (exc : string) :
  let midi_path := resolved_midi_path env args in
  let export_dir := export_dir_of env midi_path in
  let analyzed := (pre ++ bad :: post)%list in
  let attempt := write_entry (env_write_midi env) (env_path_join env)
                             export_dir in
  env_path_exists env midi_path = true ->
  parsed_key env args = inr key_override ->
  analyze_chords Key Score (env_romanNumeralFromChord env)
    (env_converter_parse env) (env_analyze_key env) (env_C_major env)
    (env_chordify env) midi_path key_override
    (arg_grid args) (arg_dedupe args) (arg_min_notes args)
    = inr (effective_key, analyzed) ->
  env_mkdir env export_dir = None ->
  (forall e, In e pre -> attempt e = None) ->
  attempt bad = Some exc ->
  let run := main env args in
  exit_code run = 0%Z /\
  stderr run = ["Warning: failed exporting per-chord MIDIs: " ++ exc] /\
  written run = map (snippet_path (env_path_join env) export_dir) pre /\
  stdout run = print_table env args midi_path effective_key analyzed /\
  (arg_limit args = None ->
   exists h1 h2 h3,
     stdout run =
     ([h1; h2; h3] ++
      map (fun entry =>
             format_row env entry (arg_bpm args) (arg_show_notes args))
          analyzed)%list).
Proof.
  cbv zeta. intros Hex Hkey Han Hmk Hpre Hbad.
  assert (Hrun : main env args =
    mkRun 0
      (print_table env args (resolved_midi_path env args) effective_key
                   (pre ++ bad :: post)%list)
      ["Warning: failed exporting per-chord MIDIs: " ++ exc]
      (map (snippet_path (env_path_join env)
              (export_dir_of env (resolved_midi_path env args))) pre)).
  { unfold main. rewrite Hex, Hkey, Han. simpl.
    unfold export_block. rewrite Hmk.
    now rewrite (export_stops _ _ _ pre post bad exc Hpre Hbad). }
  rewrite Hrun. simpl.
  repeat split.
  intros Hlim. unfold print_table.
  rewrite (print_rows_all _ 0%Z Hlim).
  destruct (0 + Z.of_nat (List.length (pre ++ bad :: post)%list) =? 0)%Z eqn:E.
  - apply Z.eqb_eq in E. rewrite length_app in E. simpl in E. lia.
  - rewrite app_nil_r. now eexists _, _, _.
Qed.

End Report.

Lemma export_failure_is_warning_witness :
  let env := toy_env "/music/song_chords/002_V.mid" in
  let run := main env toy_args in
  exit_code run = 0%Z /\
  stderr run = ["Warning: failed exporting per-chord MIDIs: disk full"] /\
  written run = ["/music/song_chords/001_I.mid"].
Proof.
  cbv zeta.
  pose (env := toy_env "/music/song_chords/002_V.mid").
  pose (out := analyze_elements toy_roman tt (1 # 4) true 3 toy_stream).
  destruct (export_failure_is_warning env toy_args None tt
              [nth 0 out (mkAnalyzedChord 0 0 "" "" 0 [])]
              [nth 2 out (mkAnalyzedChord 0 0 "" "" 0 [])]
              (nth 1 out (mkAnalyzedChord 0 0 "" "" 0 []))
              "disk full")
    as (H1 & H2 & H3 & _).
  - reflexivity.
  - reflexivity.
  - reflexivity.
  - reflexivity.
  - intros e [<- | []]. reflexivity.
  - reflexivity.
  - split; [exact H1|]. split; [exact H2 | exact H3].
Defined.

(** C1, as stated, fails: it is not so that every record whose own write
    would succeed has its snippet written. *)
Lemma export_isolation_counterexample :
  ~ (forall (write_midi : list string -> Q -> Z -> string -> option string)
            (path_join : string -> string -> string) (export_dir : string)
            (analyzed : list AnalyzedChord) (entry : AnalyzedChord),
       In entry analyzed ->
       write_entry write_midi path_join export_dir entry = None ->
       In (snippet_path path_join export_dir entry)
          (fst (export_chord_midis write_midi path_join export_dir analyzed))).
Proof.
  intros H.
  pose (env := toy_env "/music/song_chords/001_I.mid").
  pose (out := analyze_elements toy_roman tt (1 # 4) true 3 toy_stream).
  specialize (H (env_write_midi env) (env_path_join env) "/music/song_chords"
                out (nth 1 out (mkAnalyzedChord 0 0 "" "" 0 []))).
  assert (Hin : In (nth 1 out (mkAnalyzedChord 0 0 "" "" 0 [])) out).
  { apply nth_In. vm_compute. lia. }
  specialize (H Hin eq_refl). vm_compute in H. exact H.
Qed.

(** ** analyze_chords as a whole *)

(** When [analyze_chords] returns, its records are those of the loop run
    over the chordified score, under the override or the detected key. *)
Lemma analyze_chords_elements {Key Score : Type}
    (rn : ChordData -> Key -> option string)
    (converter_parse : string -> string + Score)
    (analyze_key : Score -> option Key) (C_major : Key)
    (chordify : Score -> list Music21Object)
    (midi_path : string) (key_override : option Key)
    (grid : Q) (dedupe : bool) (min_notes : Z)
    (effective_key : Key) (analyzed : list AnalyzedChord) :
  analyze_chords Key Score rn converter_parse analyze_key C_major chordify
    midi_path key_override grid dedupe min_notes
    = inr (effective_key, analyzed) ->
  exists score,
    converter_parse midi_path = inr score /\
    effective_key =
      match key_override with
      | Some k => k
      | None => detect_key Key Score analyze_key C_major score
      end /\
    analyzed =
      analyze_elements rn effective_key grid dedupe min_notes (chordify score).
Proof.
  unfold analyze_chords, chordify_and_extract.
  destruct (converter_parse midi_path) as [exc|score]; [discriminate|].
  intros H. injection H as <- <-. now exists score.
Qed.

(** A stream with no qualifying group gives no record, and the run prints
    the "no chords" line and exits with code 0. *)
Example no_chords_found :
  analyze_elements toy_roman tt (1 # 4) false 3 [Rest; Note "C4"] = [] /\
  print_table (toy_env "") toy_args "/music/song.mid" tt [] =
    [ "File: song.mid" ++ PyStr.repeat_char " " 74 ++ "Key: C major";
      "Index  Offset(q)      Secs     Roman      Figure  Notes";
      PyStr.repeat_char "-" 100;
      "No chords found with the current settings." ].
Proof. split; reflexivity. Qed.

(** * Further properties *)

(** ** The outcome of a run *)

Section Run.

Local Open Scope list_scope.

Context {Key Score : Type}.
Variable env : Env Key Score.
Variable args : Args.

Local Abbreviation midi_path := (resolved_midi_path env args).
Local Abbreviation analysis key_override :=
  (analyze_chords Key Score (env_romanNumeralFromChord env)
     (env_converter_parse env) (env_analyze_key env) (env_C_major env)
     (env_chordify env) midi_path key_override
     (arg_grid args) (arg_dedupe args) (arg_min_notes args)).
Local Abbreviation row entry :=
  (format_row env entry (arg_bpm args) (arg_show_notes args)).



(** When every write succeeds the run writes one snippet per record, in
    the order of the records, and prints no warning. *)
Theorem export_success
    (key_override : option Key) (effective_key : Key)
    (analyzed : list AnalyzedChord) :
  let export_dir := export_dir_of env midi_path in
  env_path_exists env midi_path = true ->
  parsed_key env args = inr key_override ->
  analysis key_override = inr (effective_key, analyzed) ->
  env_mkdir env export_dir = None ->
  (forall e, In e analyzed ->
     write_entry (env_write_midi env) (env_path_join env) export_dir e
       = None) ->
  let run := main env args in
  exit_code run = 0%Z /\
  stderr run = [] /\
  written run = map (snippet_path (env_path_join env) export_dir) analyzed /\
  List.length (written run) = List.length analyzed.
Proof.
  cbv zeta. intros Hex Hkey Han Hmk Hok.
  unfold main. rewrite Hex, Hkey, Han. simpl.
  unfold export_block. rewrite Hmk.
  rewrite (export_all _ _ _ analyzed Hok). simpl.
  repeat split. apply length_map.
Qed.

(** When the export directory cannot be made, no snippet is written; the
    run still prints the table and one warning and exits with code 0. *)
Theorem mkdir_failure_is_warning
    (key_override : option Key) (effective_key : Key)
    (analyzed : list AnalyzedChord) (exc : string) :
  env_path_exists env midi_path = true ->
  parsed_key env args = inr key_override ->
  analysis key_override = inr (effective_key, analyzed) ->
  env_mkdir env (export_dir_of env midi_path) = Some exc ->
  let run := main env args in
  exit_code run = 0%Z /\
  written run = [] /\
  stderr run = ["Warning: failed exporting per-chord MIDIs: " ++ exc]%string /\
  stdout run = print_table env args midi_path effective_key analyzed.
Proof.
  cbv zeta. intros Hex Hkey Han Hmk.
  unfold main. rewrite Hex, Hkey, Han. simpl.
  unfold export_block. rewrite Hmk. simpl. repeat split.
Qed.

(** The printing loop from a given count: with a limit it stops after the
    row that brings the count to the limit, and never before one row. *)
Lemma print_rows_from (l : Z) (analyzed : list AnalyzedChord) :
  arg_limit args = Some l ->
  forall count,
    print_rows env args analyzed count =
    (map (fun entry => row entry)
         (firstn (Z.to_nat (Z.max 1 (l - count))) analyzed),
     (count + Z.of_nat (List.length
                (firstn (Z.to_nat (Z.max 1 (l - count))) analyzed)))%Z).
Proof.
  intros Hlim. induction analyzed as [|e rest IH]; intros count.
  - simpl. rewrite firstn_nil. simpl. f_equal. lia.
  - simpl. rewrite Hlim.
    destruct (Z.to_nat (Z.max 1 (l - count))) as [|n] eqn:En; [lia|].
    destruct (count + 1 >=? l)%Z eqn:E.
    + apply Z.geb_le in E.
      assert (n = 0%nat) by lia. subst n. simpl. f_equal; lia.
    + assert (Hlt : (count + 1 < l)%Z).
      { destruct (Z.ltb_spec (count + 1) l) as [H|H]; [exact H|].
        apply Z.geb_le in H. congruence. }
      rewrite IH.
      replace (Z.to_nat (Z.max 1 (l - (count + 1)))) with n by lia.
      simpl. f_equal; lia.
Qed.

(** With [--limit l] the table shows the first max(1, l) records, or all
    of them if there are fewer: a limit of zero or less still shows one
    row. *)
Theorem print_rows_limit (l : Z) (analyzed : list AnalyzedChord) :
  arg_limit args = Some l ->
  fst (print_rows env args analyzed 0) =
  map (fun entry => row entry) (firstn (Z.to_nat (Z.max 1 l)) analyzed).
Proof.
  intros Hlim. rewrite (print_rows_from l analyzed Hlim). simpl.
  now rewrite Z.sub_0_r.
Qed.

Lemma print_rows_count (analyzed : list AnalyzedChord) :
  forall count,
    snd (print_rows env args analyzed count) = count <-> analyzed = [].
Proof.
  assert (Hge : forall l count,
            (count <= snd (print_rows env args l count))%Z).
  { induction l as [|e l IH]; intros count; simpl; [lia|].
    destruct (match arg_limit args with
              | Some l0 => (count + 1 >=? l0)%Z
              | None => false
              end); simpl; [lia|].
    specialize (IH (count + 1)%Z).
    destruct (print_rows env args l (count + 1)) as [rows final].
    simpl in *. lia. }
  intros count. destruct analyzed as [|e rest]; simpl; [tauto|].
  split; [|discriminate].
  destruct (match arg_limit args with
            | Some l0 => (count + 1 >=? l0)%Z
            | None => false
            end); simpl; [lia|].
  specialize (Hge rest (count + 1)%Z).
  destruct (print_rows env args rest (count + 1)) as [rows final].
  simpl in *. lia.
Qed.

(** The table is three header lines, then the rows of the printing loop,
    then the "no chords" line exactly when there is no record, whatever
    the limit. *)
Theorem print_table_shape (path : string) (effective_key : Key)
    (analyzed : list AnalyzedChord) :
  exists h1 h2 h3,
    print_table env args path effective_key analyzed =
    [h1; h2; h3] ++ fst (print_rows env args analyzed 0) ++
    match analyzed with
    | [] => [no_chords_line]
    | _ :: _ => []
    end.
Proof.
  unfold print_table.
  pose proof (print_rows_count analyzed 0%Z) as Hc.
  destruct (print_rows env args analyzed 0) as [rows count]. simpl in *.
  eexists _, _, _. simpl. do 3 f_equal.
  destruct (count =? 0)%Z eqn:E.
  - apply Z.eqb_eq in E. apply Hc in E. now subst.
  - destruct analyzed; [|reflexivity].
    apply Z.eqb_neq in E. exfalso. apply E. now apply Hc.
Qed.

End Run.

Lemma export_success_witness :
  let run := main (toy_env "") toy_args in
  exit_code run = 0%Z /\ stderr run = [] /\
  written run = [ "/music/song_chords/001_I.mid";
                  "/music/song_chords/002_V.mid";
                  "/music/song_chords/003_I.mid" ].
Proof.
  cbv zeta.
  destruct (export_success (toy_env "") toy_args None tt
              (analyze_elements toy_roman tt (1 # 4) true 3 toy_stream))
    as (H1 & H2 & H3 & _).
  - reflexivity.
  - reflexivity.
  - reflexivity.
  - reflexivity.
  - intros e _. reflexivity.
  - split; [exact H1|]. split; [exact H2 | exact H3].
Defined.

Lemma mkdir_failure_is_warning_witness :
  let run := main toy_env_readonly toy_args in
  exit_code run = 0%Z /\ written run = [] /\
  stderr run =
    ["Warning: failed exporting per-chord MIDIs: read-only file system"].
Proof.
  cbv zeta.
  destruct (mkdir_failure_is_warning toy_env_readonly toy_args None tt
              (analyze_elements toy_roman tt (1 # 4) true 3 toy_stream)
              "read-only file system")
    as (H1 & H2 & H3 & _); try reflexivity.
  split; [exact H1|]. split; [exact H2 | exact H3].
Defined.

Lemma print_rows_limit_witness :
  arg_limit (toy_args_limit 0) = Some 0%Z /\
  List.length
    (fst (print_rows (toy_env "") (toy_args_limit 0)
            (analyze_elements toy_roman tt (1 # 4) true 3 toy_stream) 0))
  = 1%nat.
Proof.
  split; [reflexivity|].
  rewrite (print_rows_limit (toy_env "") (toy_args_limit 0) 0%Z _ eq_refl).
  reflexivity.
Defined.

(** ** Where the records come from *)

Section Records.

Local Open Scope list_scope.

Context {Key : Type}.
Variable rn : ChordData -> Key -> option string.
Variable key : Key.
Variable grid : Q.
Variable min_notes : Z.

(** Every record is made from a chord of the stream that has enough
    pitches and a derived figure: its figure is that figure, unchanged, its
    offset the chord's quantized offset, its pitch names the chord's, and
    its simplified figure depends on the figure alone.  Rests, single
    notes, small chords and chords without a figure leave no record. *)
Theorem record_provenance (dedupe : bool) (elements : list Music21Object)
    (r : AnalyzedChord) :
  In r (analyze_elements rn key grid dedupe min_notes elements) ->
  exists ch,
    In (Chord ch) elements /\
    (min_notes <= Z.of_nat (List.length (pitches ch)))%Z /\
    rn ch key = Some (roman r) /\
    offset_quarter r = quantize_value (chord_offset ch) grid /\
    roman_simple r = simplify_roman_figure (roman r) /\
    pitch_names r = pitches ch.
Proof.
  rewrite analyze_elements_emitted. intros Hin.
  pose proof (emitted_Forall rn key grid dedupe min_notes
    (fun r => exists ch,
       In (Chord ch) elements /\
       (min_notes <= Z.of_nat (List.length (pitches ch)))%Z /\
       rn ch key = Some (roman r) /\
       offset_quarter r = quantize_value (chord_offset ch) grid /\
       roman_simple r = simplify_roman_figure (roman r) /\
       pitch_names r = pitches ch) elements) as HF.
  eapply Forall_forall in HF; [exact HF | | exact Hin].
  intros last i e r' He E.
  apply analyze_one_Some in E
    as (ch & -> & Hh & Hrn & _ & _ & Ho & Hs & _ & Hp).
  exists ch. simpl in Hh. apply Z.geb_le in Hh. tauto.
Qed.

Lemma dedupe_figures_length (figures : list string) :
  forall last,
    (List.length (dedupe_figures last figures) <= List.length figures)%nat.
Proof.
  induction figures as [|f rest IH]; intros last; simpl; [lia|].
  destruct (last_roman_is last f); simpl.
  - specialize (IH last). lia.
  - specialize (IH (Some f)). lia.
Qed.

(** Without dedupe every group that passes the filter and the derivation
    gives one record, in stream order; with dedupe there are no more
    records than that. *)
Theorem dedupe_off_keeps_all (elements : list Music21Object) :
  let figures := candidate_figures rn key min_notes elements in
  map roman (analyze_elements rn key grid false min_notes elements)
    = figures /\
  List.length (analyze_elements rn key grid false min_notes elements)
    = List.length figures /\
  (List.length (analyze_elements rn key grid true min_notes elements)
     <= List.length (analyze_elements rn key grid false min_notes elements))%nat.
Proof.
  cbv zeta.
  assert (Hoff : map roman
            (analyze_elements rn key grid false min_notes elements)
          = candidate_figures rn key min_notes elements).
  { rewrite analyze_elements_emitted.
    apply (emitted_romans rn key grid min_notes false). }
  assert (Hon : map roman
            (analyze_elements rn key grid true min_notes elements)
          = dedupe_figures None (candidate_figures rn key min_notes elements)).
  { rewrite analyze_elements_emitted.
    apply (emitted_romans rn key grid min_notes true). }
  split; [exact Hoff|].
  split; [now rewrite <- Hoff, length_map|].
  rewrite <- (length_map roman
    (analyze_elements rn key grid true min_notes elements)), Hon.
  rewrite <- (length_map roman
    (analyze_elements rn key grid false min_notes elements)), Hoff.
  apply dedupe_figures_length.
Qed.

Lemma last_roman_differs (last : option string) (f : string) :
  last <> Some f -> last_roman_is last f = false.
Proof.
  destruct last as [r|]; simpl; [|reflexivity].
  intros H. apply String.eqb_neq. congruence.
Qed.

Lemma emitted_without_repeats (elements : list Music21Object) :
  forall last i,
    no_repeat last (candidate_figures rn key min_notes elements) ->
    emitted rn key grid true min_notes last i elements =
    emitted rn key grid false min_notes last i elements.
Proof.
  induction elements as [|e rest IH]; intros last i Hrep; [reflexivity|].
  destruct e as [| p | ch]; simpl in *; try (now apply IH).
  destruct (Z.of_nat (List.length (pitches ch)) >=? min_notes)%Z;
    [|now apply IH].
  destruct (rn ch key) as [f|]; [|now apply IH].
  simpl in Hrep. destruct Hrep as [Hne Hrep].
  rewrite (last_roman_differs last f Hne). simpl.
  f_equal. now apply IH.
Qed.

(** When no two consecutive candidate figures are equal, the dedupe flag
    changes nothing: the same records come out, indices included. *)
Theorem dedupe_without_repeats (elements : list Music21Object) :
  no_repeat None (candidate_figures rn key min_notes elements) ->
  analyze_elements rn key grid true min_notes elements =
  analyze_elements rn key grid false min_notes elements.
Proof.
  intros H. rewrite !analyze_elements_emitted.
  now apply emitted_without_repeats.
Qed.

End Records.

Lemma record_provenance_witness :
  let out := analyze_elements toy_roman tt (1 # 4) true 3 toy_stream in
  let r := nth 1 out (mkAnalyzedChord 0 0 "" "" 0 []) in
  In r out /\ roman r = "V" /\
  exists ch, In (Chord ch) toy_stream /\ pitch_names r = pitches ch.
Proof.
  cbv zeta.
  assert (H : In (nth 1 (analyze_elements toy_roman tt (1 # 4) true 3 toy_stream)
                      (mkAnalyzedChord 0 0 "" "" 0 []))
                 (analyze_elements toy_roman tt (1 # 4) true 3 toy_stream)).
  { apply nth_In. vm_compute. lia. }
  split; [exact H|]. split; [reflexivity|].
  destruct (record_provenance toy_roman tt (1 # 4) 3 true toy_stream _ H)
    as (ch & Hin & _ & _ & _ & _ & Hp).
  now exists ch.
Defined.

Lemma dedupe_without_repeats_witness :
  no_repeat None
    (candidate_figures toy_roman tt 3
       [tonic_chord 0 1; dominant_chord 1 1; tonic_chord 2 1]) /\
  analyze_elements toy_roman tt (1 # 4) true 3
    [tonic_chord 0 1; dominant_chord 1 1; tonic_chord 2 1] =
  analyze_elements toy_roman tt (1 # 4) false 3
    [tonic_chord 0 1; dominant_chord 1 1; tonic_chord 2 1].
Proof.
  assert (H : no_repeat None
    (candidate_figures toy_roman tt 3
       [tonic_chord 0 1; dominant_chord 1 1; tonic_chord 2 1])).
  { simpl. repeat split; discriminate. }
  split; [exact H|].
  exact (dedupe_without_repeats toy_roman tt (1 # 4) 3 _ H).
Defined.

(** ** More on quantize_value *)

Section Requantize.

Local Open Scope Q_scope.

Lemma floor_unique (x : Q) (n : Z) :
  inject_Z n <= x -> x < inject_Z n + 1 -> Qfloor x = n.
Proof.
  intros Hl Hu. destruct (floor_bounds x) as [Fl Fu].
  assert (H1 : inject_Z (Qfloor x) < inject_Z (n + 1))
    by (rewrite inject_Z_plus; change (inject_Z 1) with 1; lra).
  assert (H2 : inject_Z n < inject_Z (Qfloor x + 1))
    by (rewrite inject_Z_plus; change (inject_Z 1) with 1; lra).
  rewrite <- Zlt_Qlt in H1, H2. lia.
Qed.

Lemma py_round_eq (x y : Q) : x == y -> py_round x = py_round y.
Proof.
  intros H. unfold py_round.
  rewrite (Qfloor_comp x y H).
  assert (E : x - inject_Z (Qfloor y) == y - inject_Z (Qfloor y))
    by (rewrite H; reflexivity).
  now rewrite (Qcompare_comp _ _ E (1 # 2) (1 # 2) (Qeq_refl _)).
Qed.

Lemma py_round_integer (k : Z) : py_round (inject_Z k) = k.
Proof.
  unfold py_round. rewrite Qfloor_Z.
  destruct (Qcompare_spec (inject_Z k - inject_Z k) (1 # 2)) as [E|E|E].
  - exfalso. lra.
  - reflexivity.
  - exfalso. lra.
Qed.

(** Halfway between two integers the even one is chosen. *)
Lemma py_round_half (n : Z) :
  py_round (inject_Z n + (1 # 2)) = if Z.even n then n else (n + 1)%Z.
Proof.
  assert (Hf : Qfloor (inject_Z n + (1 # 2)) = n)
    by (apply floor_unique; lra).
  unfold py_round. rewrite Hf.
  destruct (Qcompare_spec (inject_Z n + (1 # 2) - inject_Z n) (1 # 2))
    as [E|E|E].
  - reflexivity.
  - exfalso. lra.
  - exfalso. lra.
Qed.

Lemma quantize_of_multiple (x : Q) (k : Z) (g : Q) :
  0 < g -> x == inject_Z k * g ->
  quantize_value x g = inject_Z k * g.
Proof.
  intros Hg Hx. rewrite quantize_on by exact Hg.
  assert (Hg0 : ~ g == 0) by (intros H0; rewrite H0 in Hg; discriminate).
  assert (E : x / g == inject_Z k) by (rewrite Hx; field; exact Hg0).
  now rewrite (py_round_eq _ _ E), py_round_integer.
Qed.

(** Quantizing twice is quantizing once, for every grid. *)
Theorem quantize_idempotent (v g : Q) :
  quantize_value (quantize_value v g) g = quantize_value v g.
Proof.
  destruct (Qlt_le_dec 0 g) as [Hg|Hg].
  - rewrite (quantize_on v g Hg).
    apply quantize_of_multiple; [exact Hg | reflexivity].
  - now rewrite !quantize_off.
Qed.

(** A value exactly halfway between two grid lines goes to the even
    multiple of the grid. *)
Theorem quantize_tie_to_even (n : Z) (g : Q) :
  0 < g ->
  quantize_value ((inject_Z n + (1 # 2)) * g) g =
  inject_Z (if Z.even n then n else (n + 1)%Z) * g.
Proof.
  intros Hg. rewrite quantize_on by exact Hg.
  assert (Hg0 : ~ g == 0) by (intros H0; rewrite H0 in Hg; discriminate).
  assert (E : (inject_Z n + (1 # 2)) * g / g == inject_Z n + (1 # 2))
    by (field; exact Hg0).
  now rewrite (py_round_eq _ _ E), py_round_half.
Qed.

End Requantize.

Lemma quantize_tie_to_even_witness :
  (0 < 1 # 4)%Q /\
  quantize_value ((inject_Z 1 + (1 # 2)) * (1 # 4)) (1 # 4) =
    (inject_Z 2 * (1 # 4))%Q /\
  quantize_value ((inject_Z 2 + (1 # 2)) * (1 # 4)) (1 # 4) =
    (inject_Z 2 * (1 # 4))%Q.
Proof.
  assert (Hg : (0 < 1 # 4)%Q) by reflexivity.
  split; [exact Hg|]. split.
  - exact (quantize_tie_to_even 1 (1 # 4) Hg).
  - exact (quantize_tie_to_even 2 (1 # 4) Hg).
Defined.

(** ** More on simplify_roman_figure *)

Lemma length_append_str (a b : string) :
  String.length (a ++ b) = (String.length a + String.length b)%nat.
Proof. induction a as [|c a IH]; simpl; [reflexivity | now rewrite IH]. Qed.

Lemma substring_length (p s : string) :
  PyStr.substring_of p s -> (String.length p <= String.length s)%nat.
Proof.
  intros (a & b & ->). rewrite !length_append_str. lia.
Qed.

(** The suffix chosen is empty or occurs in the trailing part. *)
Lemma simplify_suffix_source (figure : string) :
  exists s, In s suffixes /\
            simplify_roman_figure figure = roman_root figure ++ s /\
            (s = "" \/ PyStr.contains s (trailing figure) = true).
Proof.
  unfold simplify_roman_figure.
  destruct (figure =? "")%string eqn:E.
  - apply String.eqb_eq in E; subst. exists "". simpl. tauto.
  - cbv zeta.
    destruct (PyStr.contains "65" (trailing figure)) eqn:E1;
      [exists "65"; simpl; tauto|].
    destruct (PyStr.contains "43" (trailing figure)) eqn:E2;
      [exists "43"; simpl; tauto|].
    destruct (PyStr.contains "42" (trailing figure)) eqn:E3;
      [exists "42"; simpl; tauto|].
    destruct (PyStr.contains "7" (trailing figure)) eqn:E4;
      [exists "7"; simpl; tauto|].
    destruct (PyStr.contains "64" (trailing figure)) eqn:E5;
      [exists "64"; simpl; tauto|].
    destruct (PyStr.contains "6" (trailing figure)) eqn:E6;
      [exists "6"; simpl; tauto|].
    exists "". simpl. tauto.
Qed.

Lemma suffix_starts_with_digit (s : string) :
  In s suffixes ->
  s = "" \/ exists d t, s = String d t /\ PyStr.isdigit d = true.
Proof.
  simpl. intros H.
  repeat (destruct H as [<- | H]; [try (now left); right; now eexists _, _|]).
  destruct H.
Qed.

(** The simplifier keeps the part before the first digit as it is
    (accidentals and case included) and replaces what follows by one of
    the codes "65", "43", "42", "7", "64", "6", which then occurs in what
    it replaces, or by nothing; so it never makes a figure longer. *)
Theorem simplify_keeps_root (figure : string) :
  roman_root (simplify_roman_figure figure) = roman_root figure /\
  simplify_roman_figure figure =
    roman_root figure ++ trailing (simplify_roman_figure figure) /\
  In (trailing (simplify_roman_figure figure))
     ["65"; "43"; "42"; "7"; "64"; "6"; ""] /\
  (trailing (simplify_roman_figure figure) = "" \/
   PyStr.substring_of (trailing (simplify_roman_figure figure))
                      (trailing figure)) /\
  (String.length (simplify_roman_figure figure)
     <= String.length figure)%nat.
Proof.
  destruct (simplify_suffix_source figure) as (s & Hs & Heq & Hsrc).
  destruct (split_root_suffix (roman_root figure) s
              (roman_root_digit_free figure) (suffix_starts_with_digit s Hs))
    as [Hroot Htrail].
  rewrite Heq, Hroot, Htrail.
  split; [reflexivity|]. split; [reflexivity|]. split; [exact Hs|].
  assert (Hsub : s = "" \/ PyStr.substring_of s (trailing figure)).
  { destruct Hsrc as [-> | H]; [now left | right; now apply contains_iff]. }
  split; [exact Hsub|].
  rewrite <- (root_trailing figure) at 2.
  rewrite !length_append_str.
  destruct Hsub as [-> | H]; [simpl; lia|].
  apply substring_length in H. lia.
Qed.

(** A figure without any digit is returned as it is. *)
Theorem simplify_digit_free (figure : string) :
  PyStr.digit_free figure = true -> simplify_roman_figure figure = figure.
Proof.
  intros H.
  destruct (split_root_suffix figure "" H (or_introl eq_refl)) as [Hr Ht].
  rewrite app_empty_r in Hr, Ht.
  unfold simplify_roman_figure.
  destruct (figure =? "")%string; [reflexivity|].
  rewrite Hr, Ht. simpl. apply app_empty_r.
Qed.

Lemma simplify_digit_free_witness :
  PyStr.digit_free "bVII/V" = true /\ simplify_roman_figure "bVII/V" = "bVII/V".
Proof.
  assert (H : PyStr.digit_free "bVII/V" = true) by reflexivity.
  split; [exact H | exact (simplify_digit_free "bVII/V" H)].
Defined.

(** ** Snippet file names *)

Lemma occurs_app (c : ascii) (a b : string) :
  occurs c (a ++ b) = occurs c a || occurs c b.
Proof.
  induction a as [|d a IH]; simpl; [reflexivity|].
  now rewrite IH, orb_assoc.
Qed.

Lemma prefix_char (c d : ascii) (s : string) :
  prefix (String c "") (String d s) = Ascii.eqb d c.
Proof.
  simpl. destruct (ascii_dec c d) as [->|Hne].
  - rewrite Ascii.eqb_refl. now destruct s.
  - symmetry. apply Ascii.eqb_neq. congruence.
Qed.

Lemma contains_char (c : ascii) (s : string) :
  PyStr.contains (String c "") s = occurs c s.
Proof.
  induction s as [|d s IH]; [reflexivity|].
  rewrite contains_cons, prefix_char, IH. reflexivity.
Qed.

Lemma occurs_repeat (c d : ascii) (n : nat) :
  Ascii.eqb d c = false -> occurs c (PyStr.repeat_char d n) = false.
Proof.
  intros H. induction n as [|n IH]; simpl; [reflexivity|].
  now rewrite H, IH.
Qed.

Lemma occurs_replace (old new : ascii) (s : string) :
  Ascii.eqb new old = false ->
  occurs old (PyStr.replace_char old new s) = false.
Proof.
  intros H. induction s as [|d s IH]; simpl; [reflexivity|].
  rewrite IH, orb_false_r.
  destruct (Ascii.eqb d old) eqn:E; [exact H | exact E].
Qed.

Lemma all_digits_app (a b : string) :
  all_digits (a ++ b) = all_digits a && all_digits b.
Proof.
  induction a as [|d a IH]; simpl; [reflexivity|].
  now rewrite IH, andb_assoc.
Qed.

Lemma all_digits_repeat_zero (n : nat) :
  all_digits (PyStr.repeat_char "0" n) = true.
Proof. induction n as [|n IH]; simpl; [reflexivity | exact IH]. Qed.

Lemma all_digits_uint (d : Decimal.uint) :
  all_digits (NilEmpty.string_of_uint d) = true.
Proof. induction d; simpl; auto. Qed.

Lemma all_digits_numeral (d : Decimal.uint) :
  all_digits (NilZero.string_of_uint d) = true.
Proof.
  destruct d; try exact (all_digits_uint _). reflexivity.
Qed.

Lemma all_digits_occurs (c : ascii) (s : string) :
  PyStr.isdigit c = false -> all_digits s = true -> occurs c s = false.
Proof.
  intros Hc. induction s as [|d s IH]; simpl; [reflexivity|].
  intros H. apply andb_true_iff in H as [Hd Hs].
  rewrite (IH Hs), orb_false_r.
  destruct (Ascii.eqb d c) eqn:E; [|reflexivity].
  apply Ascii.eqb_eq in E. congruence.
Qed.

(** The padded index of a record that is not negative: digits only. *)
Lemma format_03d_digits (n : Z) :
  (0 <= n)%Z -> all_digits (PyStr.format_03d n) = true.
Proof.
  intros Hn. unfold PyStr.format_03d.
  destruct (Z.ltb_spec n 0) as [H|_]; [lia|].
  simpl. now rewrite all_digits_app, all_digits_repeat_zero, all_digits_numeral.
Qed.

Lemma format_03d_no_slash (n : Z) : occurs "/" (PyStr.format_03d n) = false.
Proof.
  unfold PyStr.format_03d.
  rewrite !occurs_app, occurs_repeat by reflexivity.
  rewrite (all_digits_occurs "/" _ eq_refl (all_digits_numeral _)).
  now destruct (n <? 0)%Z.
Qed.

(** No snippet name contains a path separator, whatever the figure: each
    file lands in the export directory itself. *)
Theorem snippet_name_no_slash (entry : AnalyzedChord) :
  PyStr.contains "/" (snippet_name entry) = false.
Proof.
  rewrite contains_char. unfold snippet_name.
  rewrite !occurs_app, format_03d_no_slash, occurs_replace by reflexivity.
  reflexivity.
Qed.

Lemma read_decimal_zero (s : string) :
  read_decimal (String "0" s) = read_decimal s.
Proof.
  unfold read_decimal. simpl.
  destruct (NilEmpty.uint_of_string s); reflexivity.
Qed.

Lemma read_decimal_zeros (n : nat) (s : string) :
  read_decimal (PyStr.repeat_char "0" n ++ s) = read_decimal s.
Proof.
  induction n as [|n IH]; simpl; [reflexivity|].
  now rewrite read_decimal_zero.
Qed.

Lemma read_decimal_numeral (m : N) :
  read_decimal (NilZero.string_of_uint (N.to_uint m)) = Some m.
Proof.
  unfold read_decimal.
  assert (H : NilEmpty.uint_of_string (NilZero.string_of_uint (N.to_uint m))
              = Some (N.to_uint m) \/ N.to_uint m = Decimal.Nil).
  { destruct (N.to_uint m) eqn:E; try (left; apply NilEmpty.usu). now right. }
  destruct H as [-> | H].
  - simpl. now rewrite DecimalN.Unsigned.of_to.
  - rewrite H. simpl. f_equal.
    rewrite <- (DecimalN.Unsigned.of_to m), H. reflexivity.
Qed.

(** The padded index reads back as the index. *)
Lemma read_format_03d (n : Z) :
  (0 <= n)%Z -> read_decimal (PyStr.format_03d n) = Some (Z.to_N n).
Proof.
  intros Hn. unfold PyStr.format_03d.
  destruct (Z.ltb_spec n 0) as [H|_]; [lia|].
  simpl. rewrite read_decimal_zeros, read_decimal_numeral.
  now rewrite Z.abs_eq.
Qed.

Lemma digits_before_underscore (a b x y : string) :
  all_digits a = true -> all_digits b = true ->
  a ++ String "_" x = b ++ String "_" y -> a = b.
Proof.
  revert b. induction a as [|c a IH]; intros [|d b] Ha Hb H; simpl in *.
  - reflexivity.
  - injection H as <- _. discriminate Hb.
  - injection H as -> _. discriminate Ha.
  - injection H as -> H.
    apply andb_true_iff in Ha as [_ Ha]. apply andb_true_iff in Hb as [_ Hb].
    f_equal. now apply (IH b).
Qed.

Lemma snippet_name_index (e1 e2 : AnalyzedChord) :
  (0 <= index e1)%Z -> (0 <= index e2)%Z ->
  snippet_name e1 = snippet_name e2 -> index e1 = index e2.
Proof.
  intros H1 H2 Heq. unfold snippet_name in Heq.
  apply digits_before_underscore in Heq; try now apply format_03d_digits.
  pose proof (read_format_03d _ H1) as R1.
  pose proof (read_format_03d _ H2) as R2.
  rewrite Heq, R2 in R1. injection R1 as R1. lia.
Qed.

Lemma snippet_names_count_from (l : list AnalyzedChord) :
  forall start,
    (0 <= start)%Z ->
    map index l = count_from start (List.length l) ->
    NoDup (map snippet_name l).
Proof.
  induction l as [|e l IH]; intros start Hs Hidx; simpl; [constructor|].
  simpl in Hidx. injection Hidx as He Hl.
  constructor; [|apply (IH (start + 1)%Z); [lia | exact Hl]].
  intros Hin. apply in_map_iff in Hin as (e' & Hname & Hin').
  assert (Hge : (start + 1 <= index e')%Z).
  { apply (count_from_ge _ _ (List.length l)). rewrite <- Hl.
    now apply in_map. }
  apply snippet_name_index in Hname; lia.
Qed.

(** In a run no two records get the same snippet name, so no snippet
    overwrites another, however many records there are. *)
Theorem snippet_names_distinct {Key : Type}
    (rn : ChordData -> Key -> option string) (key : Key)
    (grid : Q) (dedupe : bool) (min_notes : Z)
    (elements : list Music21Object) :
  NoDup (map snippet_name
             (analyze_elements rn key grid dedupe min_notes elements)).
Proof.
  apply (snippet_names_count_from _ 1%Z); [lia|].
  rewrite analyze_elements_emitted. apply emitted_index.
Qed.

(** ** The export loop in general *)

Section ExportPrefix.

Local Open Scope list_scope.

Variable write_midi : list string -> Q -> Z -> string -> option string.
Variable path_join : string -> string -> string.
Variable export_dir : string.

Local Abbreviation export := (export_chord_midis write_midi path_join export_dir).
Local Abbreviation attempt := (write_entry write_midi path_join export_dir).
Local Abbreviation target := (snippet_path path_join export_dir).

(** Whatever fails, the files written are those of a first stretch of the
    records, each written successfully; the loop ends without an exception
    exactly when that stretch is the whole list, and otherwise the
    exception is the one raised for the first record after it. *)
Theorem export_writes_prefix (analyzed : list AnalyzedChord) :
  exists k,
    fst (export analyzed) = map target (firstn k analyzed) /\
    (forall e, In e (firstn k analyzed) -> attempt e = None) /\
    match snd (export analyzed) with
    | None => k = List.length analyzed
    | Some exc =>
        exists bad, nth_error analyzed k = Some bad /\ attempt bad = Some exc
    end.
Proof.
  induction analyzed as [|e rest (k & Hw & Hok & Hend)]; simpl.
  - exists 0%nat. simpl. repeat split. intros e [].
  - destruct (attempt e) as [exc|] eqn:He;
      unfold write_entry, snippet_path in He; rewrite He.
    + exists 0%nat. simpl. repeat split; [intros e' []|].
      exists e. split; [reflexivity|]. exact He.
    + destruct (export rest) as [paths raised]. simpl in *.
      exists (S k). simpl. split; [now rewrite Hw|].
      split.
      * intros e' [<- | Hin]; [exact He | now apply Hok].
      * destruct raised; [exact Hend | now rewrite Hend].
Qed.

End ExportPrefix.

(** ** parse_key_argument *)

Section KeyText.

Import PyText.

Lemma lstrip_nonspace (c : ascii) (s : string) :
  isspace c = false -> lstrip (String c s) = String c s.
Proof. intros H. simpl. now rewrite H. Qed.

Lemma lstrip_length (s : string) :
  (String.length (lstrip s) <= String.length s)%nat.
Proof.
  induction s as [|c s IH]; simpl; [lia|].
  destruct (isspace c); simpl; lia.
Qed.

(** Text without leading white space is empty or starts with another
    character. *)
Lemma lstrip_fixed (t : string) :
  lstrip t = t ->
  t = "" \/ exists c t', t = String c t' /\ isspace c = false.
Proof.
  destruct t as [|c t']; [now left|]. intros H. right. exists c, t'.
  split; [reflexivity|].
  simpl in H. destruct (isspace c); [|reflexivity].
  pose proof (lstrip_length t') as L. rewrite H in L. simpl in L. lia.
Qed.

Lemma lstrip_app (t x : string) :
  t <> "" -> lstrip t = t -> lstrip (t ++ x) = t ++ x.
Proof.
  intros Hne H. destruct (lstrip_fixed t H) as [-> | (c & t' & -> & Hc)];
    [congruence|].
  simpl. now rewrite Hc.
Qed.

Lemma lstrip_spaces (ws x : string) :
  all_space ws = true -> lstrip (ws ++ x) = lstrip x.
Proof.
  induction ws as [|c ws IH]; simpl; [reflexivity|].
  intros H. apply andb_true_iff in H as [Hc Hws]. rewrite Hc. now apply IH.
Qed.

Lemma rstrip_spaces (ws : string) : all_space ws = true -> rstrip ws = "".
Proof.
  induction ws as [|c ws IH]; simpl; [reflexivity|].
  intros H. apply andb_true_iff in H as [Hc Hws].
  now rewrite (IH Hws), Hc.
Qed.

Lemma rstrip_app_blank (a b : string) :
  rstrip b = "" -> rstrip (a ++ b) = rstrip a.
Proof.
  intros Hb. induction a as [|c a IH]; simpl; [exact Hb | now rewrite IH].
Qed.

Lemma rstrip_app_kept (a b : string) :
  rstrip b <> "" -> rstrip (a ++ b) = a ++ rstrip b.
Proof.
  intros Hb. induction a as [|c a IH]; simpl; [reflexivity|].
  rewrite IH.
  destruct (a ++ rstrip b =? "")%string eqn:E; [|reflexivity].
  apply String.eqb_eq in E. destruct a; simpl in E; congruence.
Qed.

Lemma lower_app (a b : string) : lower (a ++ b) = lower a ++ lower b.
Proof. induction a as [|c a IH]; simpl; [reflexivity | now rewrite IH]. Qed.

Lemma lower_length (s : string) : String.length (lower s) = String.length s.
Proof. induction s as [|c s IH]; simpl; [reflexivity | now rewrite IH]. Qed.

(** White space is not changed by [lower], so a character that lowers to
    a letter is not white space. *)
Lemma isspace_lower (c : ascii) : isspace c = true -> lower_char c = c.
Proof.
  unfold isspace, lower_char. cbv zeta.
  destruct (Nat.leb_spec 65 (nat_of_ascii c));
    destruct (Nat.leb_spec (nat_of_ascii c) 90); simpl; try reflexivity.
  destruct (Nat.leb_spec 9 (nat_of_ascii c));
    destruct (Nat.leb_spec (nat_of_ascii c) 13);
    destruct (Nat.leb_spec 28 (nat_of_ascii c));
    destruct (Nat.leb_spec (nat_of_ascii c) 32); simpl;
    try discriminate; lia.
Qed.

Lemma lower_letter (c l : ascii) :
  lower_char c = l -> isspace l = false -> isspace c = false.
Proof.
  intros Hl Hs. destruct (isspace c) eqn:E; [|reflexivity].
  rewrite (isspace_lower c E) in Hl. congruence.
Qed.

Lemma endswith_unfold (s suffix : string) :
  endswith s suffix =
  (s =? suffix)%string ||
  match s with
  | EmptyString => false
  | String _ rest => endswith rest suffix
  end.
Proof. now destruct s. Qed.

Lemma endswith_app (x suffix : string) : endswith (x ++ suffix) suffix = true.
Proof.
  induction x as [|c x IH].
  - simpl. rewrite endswith_unfold. now rewrite String.eqb_refl.
  - simpl append. rewrite endswith_unfold, IH. apply orb_true_r.
Qed.

Lemma endswith_inv (s suffix : string) :
  endswith s suffix = true -> exists a, s = a ++ suffix.
Proof.
  induction s as [|c s IH]; rewrite endswith_unfold.
  - rewrite orb_false_r. intros H. apply String.eqb_eq in H. now exists "".
  - intros H. apply orb_true_iff in H as [H | H].
    + apply String.eqb_eq in H. now exists "".
    + destruct (IH H) as [a ->]. now exists (String c a).
Qed.

Lemma same_length_suffix (x a u v : string) :
  x ++ u = a ++ v -> String.length u = String.length v -> u = v.
Proof.
  revert a. induction x as [|c x IH]; intros [|d a] H L; simpl in H.
  - exact H.
  - subst u. simpl in L. rewrite length_append_str in L. lia.
  - subst v. simpl in L. rewrite length_append_str in L. lia.
  - injection H as _ H. now apply (IH a).
Qed.

Lemma endswith_other (x u v : string) :
  String.length u = String.length v -> u <> v ->
  endswith (x ++ u) v = false.
Proof.
  intros L Hne. destruct (endswith (x ++ u) v) eqn:E; [|reflexivity].
  apply endswith_inv in E as [a E].
  apply same_length_suffix in E; [congruence | exact L].
Qed.

Lemma take_app_length (a b : string) :
  PyStr.take (String.length a) (a ++ b) = a.
Proof. induction a as [|c a IH]; simpl; [now destruct b | now rewrite IH]. Qed.

Lemma drop_last_app (a w : string) :
  drop_last (String.length w) (a ++ w) = a.
Proof.
  unfold drop_last. rewrite length_append_str.
  replace (String.length a + String.length w - String.length w)%nat
    with (String.length a) by lia.
  apply take_app_length.
Qed.

(** A mode word, in any capitalisation, is five characters that are not
    white space. *)
Lemma mode_word (w mode : string) :
  lower w = mode -> mode = "major" \/ mode = "minor" ->
  String.length w = 5%nat /\ rstrip w = w /\ lstrip w = w /\ w <> "".
Proof.
  intros Hl Hm.
  assert (L : String.length w = 5%nat).
  { rewrite <- lower_length, Hl. now destruct Hm as [-> | ->]. }
  destruct w as [|c1 [|c2 [|c3 [|c4 [|c5 [|c6 w]]]]]]; try discriminate L.
  assert (H : isspace c1 = false /\ isspace c5 = false).
  { destruct Hm as [-> | ->]; simpl in Hl; injection Hl as H1 _ _ _ H5;
      split; eapply lower_letter; eauto. }
  destruct H as [H1 H5].
  split; [reflexivity|]. simpl. rewrite H1, H5. simpl.
  repeat split; discriminate.
Qed.

Variable Key : Type.
Variable Key_of : string -> option string -> string + Key.

(** The text before a mode word, once the outer white space is gone. *)
Lemma strip_before_word (t ws w : string) :
  lstrip t = t -> rstrip t = t -> all_space ws = true ->
  rstrip w = w -> lstrip w = w -> w <> "" ->
  exists a, strip (t ++ ws ++ w) = a ++ w /\ strip a = t.
Proof.
  intros Hl Hr Hws Hrw Hlw Hw.
  unfold strip.
  rewrite (rstrip_app_kept t (ws ++ w)), (rstrip_app_kept ws w), Hrw;
    try (rewrite ?rstrip_app_kept, Hrw; try congruence;
         destruct ws; simpl; congruence).
  destruct t as [|c t'].
  - exists "". simpl. rewrite lstrip_spaces, Hlw by exact Hws. now split.
  - exists (String c t' ++ ws). rewrite lstrip_app by (congruence || exact Hl).
    split; [now rewrite app_assoc_str|].
    rewrite rstrip_app_blank by now apply rstrip_spaces.
    now rewrite Hr, Hl.
Qed.

Lemma strip_outer (lead x trail : string) :
  all_space lead = true -> all_space trail = true ->
  strip (lead ++ x ++ trail) = strip x.
Proof.
  intros Hlead Htrail. unfold strip.
  assert (Hx : rstrip (x ++ trail) = rstrip x)
    by (apply rstrip_app_blank; now apply rstrip_spaces).
  destruct (string_dec (rstrip x) "") as [E|E].
  - rewrite rstrip_app_blank by (now rewrite Hx).
    rewrite E, rstrip_spaces by exact Hlead. reflexivity.
  - rewrite rstrip_app_kept by (now rewrite Hx).
    now rewrite Hx, lstrip_spaces.
Qed.

(** White space around the key text is ignored. *)
Theorem parse_key_ignores_outer_space (lead x trail : string) :
  all_space lead = true -> all_space trail = true ->
  parse_key_argument Key_of (lead ++ x ++ trail) =
  parse_key_argument Key_of x.
Proof.
  intros Hlead Htrail. unfold parse_key_argument.
  now rewrite (strip_outer lead x trail Hlead Htrail).
Qed.

(** A tonic followed by the word major or minor, in any capitalisation and
    with any white space or none in between, gives the key of that tonic
    and that mode, when music21 does not take the whole text as it is. *)
Theorem parse_key_mode_word (t ws w mode exc : string) :
  lstrip t = t -> rstrip t = t -> all_space ws = true ->
  lower w = mode -> mode = "major" \/ mode = "minor" ->
  Key_of (strip (t ++ ws ++ w)) None = inl exc ->
  parse_key_argument Key_of (t ++ ws ++ w) = Key_of t (Some mode).
Proof.
  intros Hl Hr Hws Hw Hm Hdirect.
  destruct (mode_word w mode Hw Hm) as (L & Hrw & Hlw & Hne).
  destruct (strip_before_word t ws w Hl Hr Hws Hrw Hlw Hne) as (a & Ha & Hs).
  unfold parse_key_argument. cbv zeta.
  rewrite Hdirect, Ha, lower_app, Hw.
  replace 5%nat with (String.length w) by exact L.
  rewrite drop_last_app, Hs.
  destruct Hm as [-> | ->].
  - now rewrite endswith_app.
  - rewrite (endswith_other (lower a) "minor" "major") by (reflexivity || discriminate).
    now rewrite endswith_app.
Qed.

(** A tonic followed by a single m or M gives the minor key of that
    tonic, when music21 does not take the whole text as it is. *)
Theorem parse_key_m_suffix (t : string) (c : ascii) (exc : string) :
  lstrip t = t -> rstrip t = t -> lower_char c = "m"%char ->
  Key_of (strip (t ++ String c "")) None = inl exc ->
  parse_key_argument Key_of (t ++ String c "") = Key_of t (Some "minor").
Proof.
  intros Hl Hr Hc Hdirect.
  assert (Hsp : isspace c = false)
    by (eapply lower_letter; [exact Hc | reflexivity]).
  assert (Hrc : rstrip (String c "") = String c "")
    by (simpl; now rewrite Hsp).
  assert (Hs : strip (t ++ String c "") = t ++ String c "").
  { unfold strip. rewrite rstrip_app_kept by (rewrite Hrc; discriminate).
    rewrite Hrc. destruct t as [|d t'].
    - simpl. now rewrite Hsp.
    - apply lstrip_app; [discriminate | exact Hl]. }
  unfold parse_key_argument. cbv zeta.
  rewrite Hdirect, Hs, lower_app. simpl lower. rewrite Hc.
  assert (Hno : forall body,
            endswith (lower t ++ "m") (body ++ "r") = false).
  { intros body.
    destruct (endswith (lower t ++ "m") (body ++ "r")) eqn:E; [|reflexivity].
    apply endswith_inv in E as [a E]. rewrite <- app_assoc_str in E.
    apply same_length_suffix in E; [discriminate | reflexivity]. }
  pose proof (Hno "majo") as H1. pose proof (Hno "mino") as H2.
  simpl in H1, H2. rewrite H1, H2, endswith_app.
  change 1%nat with (String.length (String c "")).
  rewrite drop_last_app. unfold strip. now rewrite Hr, Hl.
Qed.

End KeyText.

Lemma parse_key_ignores_outer_space_witness :
  PyText.all_space "  " = true /\ PyText.all_space (String "010" "") = true /\
  parse_key_argument toy_Key_of ("  " ++ "A minor" ++ String "010" "") =
    inr ("A", "minor").
Proof.
  assert (H1 : PyText.all_space "  " = true) by reflexivity.
  assert (H2 : PyText.all_space (String "010" "") = true) by reflexivity.
  split; [exact H1|]. split; [exact H2|].
  rewrite (parse_key_ignores_outer_space _ toy_Key_of _ "A minor" _ H1 H2).
  reflexivity.
Defined.

Lemma parse_key_mode_word_witness :
  parse_key_argument toy_Key_of ("E" ++ "  " ++ "MAJOR") =
    inr ("E", "major") /\
  parse_key_argument toy_Key_of ("g" ++ "" ++ "Minor") =
    inr ("g", "minor").
Proof.
  split.
  - rewrite (parse_key_mode_word _ toy_Key_of "E" "  " "MAJOR" "major"
               "not a key: E  MAJOR"); try reflexivity. now left.
  - rewrite (parse_key_mode_word _ toy_Key_of "g" "" "Minor" "minor"
               "not a key: gMinor"); try reflexivity. now right.
Defined.

Lemma parse_key_m_suffix_witness :
  parse_key_argument toy_Key_of ("A" ++ "m") = inr ("A", "minor").
Proof.
  rewrite (parse_key_m_suffix _ toy_Key_of "A" "m" "not a key: Am");
    reflexivity.
Defined.

(** ** The stream, piece by piece *)

Section Stream.

Local Open Scope list_scope.

Context {Key : Type}.
Variable rn : ChordData -> Key -> option string.
Variable key : Key.
Variable grid : Q.
Variable dedupe : bool.
Variable min_notes : Z.

Local Abbreviation analyze := (analyze_elements rn key grid dedupe min_notes).

(** What follows in the stream never changes the records already made:
    the records of a stream start with the records of each of its
    beginnings. *)
Theorem analyze_prefix_stable (first rest : list Music21Object) :
  exists more, analyze (first ++ rest) = analyze first ++ more.
Proof.
  unfold analyze_elements. rewrite fold_left_app, fold_emitted.
  now eexists.
Qed.

Lemma emitted_filter (elements : list Music21Object) :
  forall last i,
    emitted rn key grid dedupe min_notes last i
      (filter (fun e => is_harmonic_chord e min_notes) elements) =
    emitted rn key grid dedupe min_notes last i elements.
Proof.
  induction elements as [|e rest IH]; intros last i; [reflexivity|].
  simpl filter.
  destruct (is_harmonic_chord e min_notes) eqn:E.
  - simpl.
    destruct (analyze_one rn key grid dedupe min_notes last i e);
      [f_equal|]; apply IH.
  - rewrite IH. simpl.
    assert (H : analyze_one rn key grid dedupe min_notes last i e = None).
    { unfold analyze_one. destruct e as [| p | ch]; try reflexivity.
      now rewrite E. }
    now rewrite H.
Qed.

(** Rests, single notes and chords below the threshold are as good as
    absent: taking them out of the stream gives the same records, so two
    equal chords with only such elements between them still count as
    consecutive for dedupe. *)
Theorem analyze_ignores_filtered (elements : list Music21Object) :
  analyze (filter (fun e => is_harmonic_chord e min_notes) elements) =
  analyze elements.
Proof. rewrite !analyze_elements_emitted. apply emitted_filter. Qed.

End Stream.

(** ** Offsets on the grid *)

Section Grid.

Local Open Scope Q_scope.

Lemma quantize_near (v g : Q) :
  0 < g -> v - g / 2 <= quantize_value v g <= v + g / 2.
Proof.
  intros Hg. rewrite quantize_on by exact Hg.
  pose proof (py_round_near (v / g)) as [Hl Hu].
  assert (Hg0 : ~ g == 0) by (intros H0; rewrite H0 in Hg; discriminate).
  assert (H1 : (v / g - (1 # 2)) * g <= inject_Z (py_round (v / g)) * g)
    by (apply Qmult_le_compat_r; lra).
  assert (H2 : inject_Z (py_round (v / g)) * g <= (v / g + (1 # 2)) * g)
    by (apply Qmult_le_compat_r; lra).
  assert (E1 : (v / g - (1 # 2)) * g == v - g / 2) by (field; exact Hg0).
  assert (E2 : (v / g + (1 # 2)) * g == v + g / 2) by (field; exact Hg0).
  rewrite E1 in H1. rewrite E2 in H2. now split.
Qed.

(** An offset that is not negative stays so, for every grid. *)
Lemma quantize_nonneg (v g : Q) : 0 <= v -> 0 <= quantize_value v g.
Proof.
  intros Hv. destruct (Qlt_le_dec 0 g) as [Hg|Hg].
  - assert (H0 : quantize_value 0 g = inject_Z 0 * g).
    { apply quantize_of_multiple; [exact Hg|]. ring. }
    pose proof (quantize_mono_on 0 v g Hg Hv) as H. rewrite H0 in H.
    assert (E : inject_Z 0 * g == 0) by ring. now rewrite E in H.
  - now rewrite quantize_off.
Qed.

(** With a positive grid every record sits on a grid line, at most half a
    step from the offset of the chord it was made from, and not before
    zero when that offset is not. *)
Theorem record_offsets_on_grid {Key : Type}
    (rn : ChordData -> Key -> option string) (key : Key)
    (g : Q) (dedupe : bool) (min_notes : Z)
    (elements : list Music21Object) (r : AnalyzedChord) :
  0 < g ->
  In r (analyze_elements rn key g dedupe min_notes elements) ->
  exists ch k,
    In (Chord ch) elements /\
    offset_quarter r = inject_Z k * g /\
    chord_offset ch - g / 2 <= offset_quarter r <= chord_offset ch + g / 2 /\
    (0 <= chord_offset ch -> 0 <= offset_quarter r).
Proof.
  intros Hg Hin. rewrite analyze_elements_emitted in Hin.
  pose proof (emitted_Forall rn key g dedupe min_notes
    (fun r => exists ch,
       In (Chord ch) elements /\
       offset_quarter r = quantize_value (chord_offset ch) g) elements) as HF.
  eapply Forall_forall in HF; [| | exact Hin].
  - destruct HF as (ch & Hch & Ho).
    exists ch, (py_round (chord_offset ch / g)).
    split; [exact Hch|]. rewrite Ho.
    split; [now apply quantize_on|].
    split; [now apply quantize_near | apply quantize_nonneg].
  - intros last i e r' He E.
    apply analyze_one_Some in E as (ch & -> & _ & _ & _ & _ & Ho & _).
    now exists ch.
Qed.

End Grid.

Lemma record_offsets_on_grid_witness :
  let out := analyze_elements toy_roman tt (1 # 4) true 3 toy_stream in
  let r := nth 2 out (mkAnalyzedChord 0 0 "" "" 0 []) in
  (0 < 1 # 4)%Q /\ In r out /\
  exists k, offset_quarter r = (inject_Z k * (1 # 4))%Q.
Proof.
  cbv zeta.
  assert (Hg : (0 < 1 # 4)%Q) by reflexivity.
  assert (H : In (nth 2 (analyze_elements toy_roman tt (1 # 4) true 3 toy_stream)
                      (mkAnalyzedChord 0 0 "" "" 0 []))
                 (analyze_elements toy_roman tt (1 # 4) true 3 toy_stream)).
  { apply nth_In. vm_compute. lia. }
  split; [exact Hg|]. split; [exact H|].
  destruct (record_offsets_on_grid toy_roman tt (1 # 4) true 3 toy_stream _ Hg H)
    as (ch & k & _ & Hk & _).
  now exists k.
Defined.
